(** * Montgomery reduction: a shallow embedding of [src/main2.cpp] and of the
    second program variant [src/unnamed/part_000], with the properties of the
    specification proved against the code.

    Machine integers are modelled as [Z] with the wrap-around of every
    unsigned operation written out; signed 32-bit arithmetic is checked
    (overflow is undefined behaviour in C++, so it is an outcome of its own).
    Loops run on fuel; the theorems give a fuel that is always enough. *)

From Stdlib Require Import ZArith Lia String Bool.

Local Open Scope Z_scope.

(** ** Machine integers *)

(** Conversion to [uint32_t] and [uint64_t]: reduction modulo 2^32, 2^64. *)
Definition u32 (z : Z) : Z := z mod 2^32.
Definition u64 (z : Z) : Z := z mod 2^64.

Definition INT32_MAX : Z := 2^31 - 1.
Definition INT32_MIN : Z := - 2^31.

(** Conversion to [int32_t] (the two's-complement reading of the low 32 bits). *)
Definition s32 (z : Z) : Z := (z + 2^31) mod 2^32 - 2^31.

Definition in_int32 (z : Z) : bool := (INT32_MIN <=? z) && (z <=? INT32_MAX).

(** ** Outcomes of a computation *)

(** The two exception classes the programs throw, with their messages. *)
Inductive exn : Type :=
| invalid_argument (what : string)
| runtime_error (what : string).

Inductive outcome (A : Type) : Type :=
| Ok (a : A)            (* normal return *)
| Throw (e : exn)       (* a C++ exception propagates *)
| Undefined             (* undefined behaviour: signed overflow, division by 0 *)
| AssertFail            (* a failed [assert] *)
| OutOfFuel.            (* the model's loop budget ran out *)

Arguments Ok {A} a.
Arguments Throw {A} e.
Arguments Undefined {A}.
Arguments AssertFail {A}.
Arguments OutOfFuel {A}.

Definition bind {A B : Type} (c : outcome A) (k : A -> outcome B) : outcome B :=
  match c with
  | Ok a => k a
  | Throw e => Throw e
  | Undefined => Undefined
  | AssertFail => AssertFail
  | OutOfFuel => OutOfFuel
  end.

Notation "x <- c ;; k" := (bind c (fun x => k))
  (at level 61, c at next level, right associativity).

(** [while (cond) body], at most [fuel] executions of the body. *)
Fixpoint while {S : Type} (fuel : nat) (cond : S -> bool)
    (body : S -> outcome S) (s : S) : outcome S :=
  if cond s then
    match fuel with
    | O => OutOfFuel
    | Datatypes.S fuel' => s' <- body s ;; while fuel' cond body s'
    end
  else Ok s.

(** [do body while (cond)], at most [fuel] executions of the body. *)
Definition do_while {S : Type} (fuel : nat) (cond : S -> bool)
    (body : S -> outcome S) (s : S) : outcome S :=
  match fuel with
  | O => OutOfFuel
  | Datatypes.S fuel' => s' <- body s ;; while fuel' cond body s'
  end.

(** Checked [int32_t] arithmetic. *)
Definition chk32 (z : Z) : outcome Z := if in_int32 z then Ok z else Undefined.
Definition add32 (a b : Z) : outcome Z := chk32 (a + b).
Definition sub32 (a b : Z) : outcome Z := chk32 (a - b).
Definition mul32 (a b : Z) : outcome Z := chk32 (a * b).

(** [x % n] on [int32_t]: truncating remainder. *)
Definition rem32 (x n : Z) : outcome Z :=
  if n =? 0 then Undefined
  else if (x =? INT32_MIN) && (n =? -1) then Undefined
  else Ok (Z.rem x n).

(** [x % n] on unsigned operands. *)
Definition umod (x n : Z) : outcome Z :=
  if n =? 0 then Undefined else Ok (x mod n).

(** ** Functions shared by the two programs *)

(** [uint32_t bit_length(uint32_t n)]; the loop state is [(n, result)]. *)
Definition bit_length (fuel : nat) (n : Z) : outcome Z :=
  s <- while fuel (fun s => 0 <? fst s)
         (fun s => Ok (Z.shiftr (fst s) 1, u32 (snd s + 1)))
         (n, 0) ;;
  Ok (snd s).

(** [uint32_t mod(const int32_t x, const int32_t n)]. *)
Definition mod_ (x n : Z) : outcome Z :=
  result <- rem32 x n ;;
  result <- (if result <? 0 then add32 result n else Ok result) ;;
  Ok (u32 result).

(** The variables of the loop of [mod_mult_inv]: [x], [y] are [uint32_t],
    [a], [b] are [int32_t]. *)
Record egcd_state : Type := mk_egcd { st_x : Z; st_y : Z; st_a : Z; st_b : Z }.

(** One execution of the loop body (entered with [y != 0]). *)
Definition egcd_body (s : egcd_state) : outcome egcd_state :=
  p <- mul32 (s32 (st_x s / st_y s)) (st_b s) ;;
  b' <- sub32 (st_a s) p ;;
  Ok {| st_x := st_y s; st_y := st_x s mod st_y s; st_a := st_b s; st_b := b' |}.

Definition egcd_init (n y : Z) : egcd_state :=
  {| st_x := n; st_y := y; st_a := 0; st_b := 1 |}.

(** [uint32_t mod_mult_inv(const uint32_t n, const uint32_t r)]. *)
Definition mod_mult_inv (fuel : nat) (n r : Z) : outcome Z :=
  y <- umod r n ;;
  s <- while fuel (fun s => negb (st_y s =? 0)) egcd_body (egcd_init n y) ;;
  if negb (st_x s =? 1) then Throw (runtime_error "Reciprocal does not exist.")
  else mod_ (st_a s) (s32 n).

(** [reciprocal_mod] of [src/unnamed/part_000] has the body of [mod_mult_inv]
    token for token; only the name differs. *)
Definition reciprocal_mod (fuel : nat) (n r : Z) : outcome Z :=
  y <- umod r n ;;
  s <- while fuel (fun s => negb (st_y s =? 0)) egcd_body (egcd_init n y) ;;
  if negb (st_x s =? 1) then Throw (runtime_error "Reciprocal does not exist.")
  else mod_ (st_a s) (s32 n).

(** The same computation on exact integers: no conversion, no range check. *)
Definition egcd_body_exact (s : egcd_state) : outcome egcd_state :=
  Ok {| st_x := st_y s; st_y := st_x s mod st_y s; st_a := st_b s;
        st_b := st_a s - (st_x s / st_y s) * st_b s |}.

Definition mod_mult_inv_exact (fuel : nat) (n r : Z) : outcome Z :=
  s <- while fuel (fun s => negb (st_y s =? 0)) egcd_body_exact
         (egcd_init n (r mod n)) ;;
  if negb (st_x s =? 1) then Throw (runtime_error "Reciprocal does not exist.")
  else Ok (st_a s mod n).

(** ** [HenselLemma2adicRoot] of [src/main2.cpp] *)

(** The variables of the inner [do ... while]: [f], [t], [a]. *)
Record search_state : Type := mk_search { se_f : Z; se_t : Z; se_a : Z }.

(** The variables of the [for] loop: [a_prev], [c], [mod_mask], [k]. *)
Record hensel_state : Type :=
  mk_hensel { hs_a_prev : Z; hs_c : Z; hs_mod_mask : Z; hs_k : Z }.

(** [a = a_prev + c * t++; f = q * a + 1ULL;] on [uint64_t]. *)
Definition search_body (q a_prev c : Z) (s : search_state) : outcome search_state :=
  let a := u64 (a_prev + u64 (c * se_t s)) in
  Ok {| se_f := u64 (u64 (q * a) + 1); se_t := u64 (se_t s + 1); se_a := a |}.

(** The inner search of one lifting step. *)
Definition hensel_search (inner : nat) (q a_prev c mod_mask : Z) : outcome search_state :=
  do_while inner (fun s => negb (Z.land (se_f s) mod_mask =? 0))
    (search_body q a_prev c) {| se_f := 0; se_t := 0; se_a := 0 |}.

Definition hensel_body (inner : nat) (q : Z) (h : hensel_state) : outcome hensel_state :=
  s <- hensel_search inner q (hs_a_prev h) (hs_c h) (hs_mod_mask h) ;;
  Ok {| hs_a_prev := se_a s;
        hs_c := u64 (hs_c h * 2);
        hs_mod_mask := u64 (u64 (hs_mod_mask h * 2) + 1);
        hs_k := u64 (hs_k h + 1) |}.

(** [uint64_t HenselLemma2adicRoot(uint32_t r, uint64_t q)]: [outer] bounds
    the executions of the [for] body, [inner] those of each [do ... while]. *)
Definition HenselLemma2adicRoot (outer inner : nat) (r q : Z) : outcome Z :=
  h <- while outer (fun h => hs_k h <=? r) (hensel_body inner q)
         {| hs_a_prev := 1; hs_c := 2; hs_mod_mask := 3; hs_k := 2 |} ;;
  Ok (hs_a_prev h).

(** ** The class [Montgomery] of [src/main2.cpp] *)

Module Main2.

Record Montgomery : Type := mk {
  n : Z;            (* uint32_t *)
  r_bit_len : Z;    (* uint32_t *)
  r_inv_mod : Z;    (* uint32_t *)
  r_mask : Z;       (* uint32_t *)
  n_inv_mod : Z;    (* uint32_t *)
  r2_mod_n : Z      (* uint32_t *)
}.

(** [Montgomery(const uint32_t _n)]. *)
Definition construct (fuel : nat) (_n : Z) : outcome Montgomery :=
  if _n <? 3 then Throw (invalid_argument "Modulus must be >= 3.")
  else if _n mod 2 =? 0 then Throw (invalid_argument "Modulus must be odd.")
  else if _n >? INT32_MAX then
    Throw (invalid_argument "Modulus must be less than 2^31.")
  else
    r_bit_len <- bit_length fuel _n ;;
    if negb (r_bit_len <=? 31) then AssertFail
    else
      let r := u32 (Z.shiftl 1 r_bit_len) in
      let r_mask := u32 (r - 1) in
      r_inv_mod <- mod_mult_inv fuel _n r ;;
      let n_inv_mod := u32 (u64 (u64 (r * r_inv_mod) - 1) / _n) in
      let r2_mod_n := u32 (u64 (r * r) mod _n) in
      Ok {| n := _n; r_bit_len := r_bit_len; r_inv_mod := r_inv_mod;
            r_mask := r_mask; n_inv_mod := n_inv_mod; r2_mod_n := r2_mod_n |}.

(** The locals [s] and [t] of [REDC], for a [uint64_t] argument [x]. *)
Definition REDC_s (m : Montgomery) (x : Z) : Z :=
  u32 (Z.land (u64 (Z.land x (r_mask m) * n_inv_mod m)) (r_mask m)).

Definition REDC_t (m : Montgomery) (x : Z) : Z :=
  u64 (x + u64 (REDC_s m x * n m)).

(** A member function reads the object and hands it on: it returns its
    value together with the object after the call. *)
Definition method (A : Type) : Type := Montgomery -> A * Montgomery.

(** [uint32_t REDC(const uint64_t x)]. *)
Definition REDC (x : Z) : method Z := fun m =>
  let u := u32 (Z.shiftr (REDC_t m x) (r_bit_len m)) in
  (if n m <=? u then u32 (u - n m) else u, m).

(** [uint32_t convert_in(uint32_t x)]; [n] is at least 3 in every object
    the constructor returns, so [x %= n] never divides by 0. *)
Definition convert_in (x : Z) : method Z := fun m =>
  let x := if n m <=? x then x mod n m else x in
  REDC (u64 (x * r2_mod_n m)) m.

(** [uint32_t convert_out(const uint32_t x)]. *)
Definition convert_out (x : Z) : method Z := fun m => REDC x m.

(** [uint32_t multiply(const uint32_t a, const uint32_t b)]. *)
Definition multiply (a b : Z) : method Z := fun m => REDC (u64 (a * b)) m.

(** The four calls of the test loop of [main]: [a_], [b_], [c_], [c]. *)
Definition product (a b : Z) : method Z := fun m =>
  let (a_, m) := convert_in a m in
  let (b_, m) := convert_in b m in
  let (c_, m) := multiply a_ b_ m in
  convert_out c_ m.

(** One trial of the test loop of [main], for the drawn modulus [n] and
    operands [a], [b]: construct, convert, multiply, convert back and compare
    with [expected]. *)
Definition trial (fuel : nat) (n a b : Z) : outcome unit :=
  mont <- construct fuel n ;;
  let (a_, mont) := convert_in a mont in
  let (b_, mont) := convert_in b mont in
  let (c_, mont) := multiply a_ b_ mont in
  let (c, mont) := convert_out c_ mont in
  let expected := u32 (u64 (a * b) mod n) in
  if negb (c =? expected)
  then Throw (runtime_error "Montgomery multiplication test failed.")
  else Ok tt.

End Main2.

(** ** The class [Montgomery] of [src/unnamed/part_000] *)

Module Part0.

Record Montgomery : Type := mk {
  n : Z;            (* uint32_t *)
  r_bit_len : Z;    (* uint32_t *)
  r_reciprocal : Z; (* uint32_t *)
  r_mask : Z;       (* uint32_t *)
  k : Z             (* uint32_t *)
}.

(** [Montgomery(const uint32_t _n)]. *)
Definition construct (fuel : nat) (_n : Z) : outcome Montgomery :=
  if _n <? 3 then Throw (invalid_argument "Modulus must be >= 3.")
  else if _n mod 2 =? 0 then Throw (invalid_argument "Modulus must be odd.")
  else if _n >? INT32_MAX then
    Throw (invalid_argument "Modulus must be less than 2^31.")
  else
    r_bit_len <- bit_length fuel _n ;;
    if negb (r_bit_len <=? 31) then AssertFail
    else
      let r := u32 (Z.shiftl 1 r_bit_len) in
      let r_mask := u32 (r - 1) in
      r_reciprocal <- reciprocal_mod fuel _n r ;;
      let k := u32 (u64 (u64 (r * r_reciprocal) - 1) / _n) in
      Ok {| n := _n; r_bit_len := r_bit_len; r_reciprocal := r_reciprocal;
            r_mask := r_mask; k := k |}.

Definition method (A : Type) : Type := Montgomery -> A * Montgomery.

(** [uint32_t convert_in(const uint32_t x)]. *)
Definition convert_in (x : Z) : method Z := fun m =>
  (u32 (u64 (Z.shiftl x (r_bit_len m)) mod n m), m).

(** [uint32_t convert_out(const uint32_t x)]. *)
Definition convert_out (x : Z) : method Z := fun m =>
  (u32 (u64 (x * r_reciprocal m) mod n m), m).

(** The locals [s] and [t] of [multiply], for its local [x]. *)
Definition multiply_s (m : Montgomery) (x : Z) : Z :=
  u32 (Z.land (u64 (Z.land x (r_mask m) * k m)) (r_mask m)).

Definition multiply_t (m : Montgomery) (x : Z) : Z :=
  u64 (x + u64 (multiply_s m x * n m)).

(** [uint32_t multiply(const uint32_t a, const uint32_t b)]. *)
Definition multiply (a b : Z) : method Z := fun m =>
  let x := u64 (a * b) in
  let u := u32 (Z.shiftr (multiply_t m x) (r_bit_len m)) in
  (if n m <=? u then u32 (u - n m) else u, m).

(** The four calls of the test loop of [main]: [a_], [b_], [c_], [c]. *)
Definition product (a b : Z) : method Z := fun m =>
  let (a_, m) := convert_in a m in
  let (b_, m) := convert_in b m in
  let (c_, m) := multiply a_ b_ m in
  convert_out c_ m.

(** One trial of the test loop of [main], for the drawn modulus [n] and
    operands [a], [b]: construct, convert, multiply, convert back and compare
    with [expected]. *)
Definition trial (fuel : nat) (n a b : Z) : outcome unit :=
  mont <- construct fuel n ;;
  let (a_, mont) := convert_in a mont in
  let (b_, mont) := convert_in b mont in
  let (c_, mont) := multiply a_ b_ mont in
  let (c, mont) := convert_out c_ mont in
  let expected := u32 (u64 (a * b) mod n) in
  if negb (c =? expected)
  then Throw (runtime_error "Montgomery multiplication test failed.")
  else Ok tt.

End Part0.

(** ** Definitions used to state the properties *)

(** The number of bits of [n]: the smallest [k] with [n < 2^k]. *)
Definition bits (n : Z) : Z := if n =? 0 then 0 else Z.log2 n + 1.

(** What the constructor establishes about the parameters it stores. *)
Definition params_ok (N k ri ni : Z) : Prop :=
  k = bits N /\ 0 < ri < N /\ (2^k * ri) mod N = 1 /\
  0 <= ni <= 2^k - 1 /\ 2^k * ri - 1 = ni * N.

(** What the loop of [mod_mult_inv] keeps true of [x], [y], [a], [b]: the
    remainders decrease, their gcd is that of [n] and [r], [a] and [b] are
    the coefficients of [r] for [x] and [y] modulo [n], and they alternate
    in sign with [|b|*x + |a|*y = n]. *)
Definition egcd_inv (n r : Z) (s : egcd_state) : Prop :=
  0 <= st_y s < st_x s /\ st_x s <= n /\
  Z.gcd (st_x s) (st_y s) = Z.gcd n r /\
  (n | st_a s * r - st_x s) /\ (n | st_b s * r - st_y s) /\
  - n <= st_a s <= n /\
  (   (st_a s <= 0 <= st_b s /\ st_b s * st_x s - st_a s * st_y s = n)
   \/ (st_b s <= 0 <= st_a s /\ st_a s * st_y s - st_b s * st_x s = n)).

(** The loop's measure: the bit length of [2*x*y + 1], which drops at every
    iteration because [x*y] at least halves. *)
Definition egcd_measure (s : egcd_state) : nat :=
  Z.to_nat (Z.log2 (2 * (st_x s * st_y s) + 1)).

(** The states of the loop of [mod_mult_inv] on exact integers, from the
    initial one, for the arguments [n] and [r]. *)
Inductive egcd_reach (n r : Z) : egcd_state -> Prop :=
| reach_init : egcd_reach n r (egcd_init n (r mod n))
| reach_step (s s' : egcd_state) :
    egcd_reach n r s -> st_y s <> 0 -> egcd_body_exact s = Ok s' ->
    egcd_reach n r s'.

(** Every [int32_t] value computed from the state [s] is the exact one: the
    stored [a] and [b]; in the loop body the converted quotient, the product
    and the difference; after the loop the remainder of [mod] and, when it
    is negative, its sum with [n]. *)
Definition int32_safe (n : Z) (s : egcd_state) : Prop :=
  in_int32 (st_a s) = true /\ in_int32 (st_b s) = true /\
  (st_y s <> 0 ->
     s32 (st_x s / st_y s) = st_x s / st_y s /\
     in_int32 (st_x s / st_y s * st_b s) = true /\
     in_int32 (st_a s - st_x s / st_y s * st_b s) = true) /\
  (st_y s = 0 ->
     s32 n = n /\ in_int32 (Z.rem (st_a s) n) = true /\
     (Z.rem (st_a s) n < 0 -> in_int32 (Z.rem (st_a s) n + n) = true)).

(** What the [for] loop of [HenselLemma2adicRoot] keeps true when it tests
    [k <= r]: [c = 2^(k-1)], [mod_mask = 2^k - 1], and [a_prev] solves
    [q * X + 1 = 0] modulo [2^(k-1)]. *)
Definition hensel_inv (r q : Z) (h : hensel_state) : Prop :=
  2 <= hs_k h <= r + 1 /\
  hs_c h = 2 ^ (hs_k h - 1) /\ hs_mod_mask h = 2 ^ hs_k h - 1 /\
  0 <= hs_a_prev h < 2 ^ (hs_k h - 1) /\
  (q * hs_a_prev h + 1) mod 2 ^ (hs_k h - 1) = 0.

(** ** The draws of the test loop of [main] (the same in both programs) *)

Definition UINT32_MAX : Z := 2^32 - 1.

(** [min_n = (1U << bitlen) + 1] and [max_n = UINT32_MAX >> (31 - bitlen)],
    the bounds of the distribution the modulus is drawn from. *)
Definition min_n (bitlen : Z) : Z := u32 (u32 (Z.shiftl 1 bitlen) + 1).
Definition max_n (bitlen : Z) : Z := Z.shiftr UINT32_MAX (u32 (31 - bitlen)).

(** What the [for] loop of [HenselLemma2adicRoot] keeps true for any [r]:
    as [hensel_inv], with the exponents capped at the 64 bits of the
    variables ([c] has wrapped to 0 once [k] exceeds 64). *)
Definition hensel_inv_wide (r q : Z) (h : hensel_state) : Prop :=
  2 <= hs_k h <= r + 1 /\
  hs_c h = u64 (2 ^ (hs_k h - 1)) /\
  hs_mod_mask h = 2 ^ Z.min (hs_k h) 64 - 1 /\
  0 <= hs_a_prev h < 2 ^ Z.min (hs_k h - 1) 64 /\
  (q * hs_a_prev h + 1) mod 2 ^ Z.min (hs_k h - 1) 64 = 0.

(** * Properties *)

(** ** Machine integers and the loop rule *)

Lemma u32_small (z : Z) : 0 <= z < 2^32 -> u32 z = z.
Proof. intros H. unfold u32. now apply Z.mod_small. Qed.

Lemma u64_small (z : Z) : 0 <= z < 2^64 -> u64 z = z.
Proof. intros H. unfold u64. now apply Z.mod_small. Qed.

Lemma s32_small (z : Z) : - 2^31 <= z < 2^31 -> s32 z = z.
Proof. intros H. unfold s32. rewrite Z.mod_small; lia. Qed.

Lemma chk32_ok (z : Z) : - 2^31 <= z < 2^31 -> chk32 z = Ok z.
Proof.
  intros H. unfold chk32, in_int32, INT32_MIN, INT32_MAX.
  replace (- 2^31 <=? z) with true by (symmetry; apply Z.leb_le; lia).
  replace (z <=? 2^31 - 1) with true by (symmetry; apply Z.leb_le; lia).
  reflexivity.
Qed.

(** An invariant with a decreasing measure carries a loop to its exit once
    the fuel covers the measure. *)
Lemma while_rule {S : Type} (I : S -> Prop) (mu : S -> nat)
    (cond : S -> bool) (body : S -> outcome S) :
  (forall s, I s -> cond s = true ->
     exists s', body s = Ok s' /\ I s' /\ (mu s' < mu s)%nat) ->
  forall fuel s, I s -> (mu s <= fuel)%nat ->
    exists s', while fuel cond body s = Ok s' /\ I s' /\ cond s' = false.
Proof.
  intros step fuel. induction fuel as [|fuel IH]; intros s Hs Hmu.
  - destruct (cond s) eqn:C.
    + destruct (step s Hs C) as (s' & _ & _ & Hlt). lia.
    + exists s. simpl. rewrite C. auto.
  - simpl. destruct (cond s) eqn:C.
    + destruct (step s Hs C) as (s' & Hb & Hs' & Hlt).
      rewrite Hb. simpl. apply IH; [assumption | lia].
    + exists s. auto.
Qed.

(** ** [bit_length] *)

Lemma bits_nonneg (n : Z) : 0 <= bits n.
Proof.
  unfold bits. destruct (n =? 0); [lia | pose proof (Z.log2_nonneg n); lia].
Qed.

Lemma bits_half (n : Z) : 0 < n -> bits (Z.shiftr n 1) = bits n - 1.
Proof.
  intros Hn. unfold bits.
  destruct (Z.eqb_spec n 0) as [->|_]; [lia|].
  destruct (Z.eqb_spec (Z.shiftr n 1) 0) as [E|E].
  - apply Z.shiftr_eq_0_iff in E. pose proof (Z.log2_nonneg n). lia.
  - rewrite Z.log2_shiftr by assumption.
    assert (~ Z.log2 n < 1) by (intro; apply E, Z.shiftr_eq_0_iff; lia).
    lia.
Qed.

Lemma bits_spec (n : Z) : 0 < n -> 2 ^ (bits n - 1) <= n < 2 ^ bits n.
Proof.
  intros Hn. unfold bits. destruct (Z.eqb_spec n 0); [lia|].
  replace (Z.log2 n + 1 - 1) with (Z.log2 n) by lia.
  apply Z.log2_spec; assumption.
Qed.

Lemma bits_le (n k : Z) : 0 <= n < 2 ^ k -> 0 <= k -> bits n <= k.
Proof.
  intros Hn Hk. unfold bits. destruct (Z.eqb_spec n 0); [lia|].
  enough (Z.log2 n < k) by lia. apply Z.log2_lt_pow2; lia.
Qed.

Lemma bit_length_loop (fuel : nat) :
  forall n res, 0 <= n -> 0 <= res -> res + bits n < 2^32 ->
    (Z.to_nat (bits n) <= fuel)%nat ->
    while fuel (fun s => 0 <? fst s)
      (fun s => Ok (Z.shiftr (fst s) 1, u32 (snd s + 1))) (n, res)
    = Ok (0, res + bits n).
Proof.
  induction fuel as [|fuel IH]; intros n res Hn Hres Hsum Hfuel.
  - assert (bits n = 0) by (pose proof (bits_nonneg n); lia).
    assert (n = 0).
    { unfold bits in *. destruct (Z.eqb_spec n 0); [assumption|].
      pose proof (Z.log2_nonneg n); lia. }
    subst n. simpl. now rewrite Z.add_0_r.
  - simpl while. destruct (Z.ltb_spec 0 n) as [Hpos|Hpos]; simpl fst in *.
    + replace (0 <? n) with true by (symmetry; apply Z.ltb_lt; assumption).
      simpl. pose proof (bits_half n Hpos) as Hh.
      assert (0 <= Z.shiftr n 1) by (apply Z.shiftr_nonneg; lia).
      pose proof (bits_nonneg (Z.shiftr n 1)).
      rewrite u32_small by lia.
      rewrite IH by lia. f_equal. f_equal. lia.
    + replace (0 <? n) with false by (symmetry; apply Z.ltb_ge; assumption).
      assert (n = 0) by lia. subst n. now rewrite Z.add_0_r.
Qed.

Lemma bit_length_correct (fuel : nat) (n : Z) :
  0 <= n < 2^32 -> (32 <= fuel)%nat -> bit_length fuel n = Ok (bits n).
Proof.
  intros Hn Hfuel. unfold bit_length.
  assert (bits n <= 32) by (apply bits_le; lia).
  pose proof (bits_nonneg n).
  rewrite bit_length_loop by lia. reflexivity.
Qed.

(** ** The Euclidean loop of [mod_mult_inv] *)

Lemma mod_true (x n : Z) :
  - 2^31 <= x < 2^31 -> 0 < n < 2^31 -> mod_ x n = Ok (x mod n).
Proof.
  intros Hx Hn. unfold mod_, rem32, INT32_MIN.
  destruct (Z.eqb_spec n 0) as [E|_]; [lia|].
  destruct (Z.eqb_spec n (-1)) as [E|_]; [lia|].
  rewrite andb_false_r. simpl bind.
  pose proof (Z.quot_rem' x n) as Hq.
  destruct (Z.ltb_spec (Z.rem x n) 0) as [Hneg|Hpos].
  - assert (- n < Z.rem x n <= 0).
    { apply Z.rem_bound_pos_neg; [lia|].
      destruct (Z_le_gt_dec x 0) as [|Hgt]; [assumption|].
      pose proof (Z.rem_nonneg x n); lia. }
    unfold add32. rewrite chk32_ok by lia. simpl.
    assert (Z.rem x n + n = x mod n) as ->.
    { apply Zmod_unique with (q := x ÷ n - 1); lia. }
    rewrite u32_small; [reflexivity|].
    pose proof (Z.mod_pos_bound x n); lia.
  - simpl.
    assert (Z.rem x n < n).
    { pose proof (Z.rem_bound_abs x n); lia. }
    assert (Z.rem x n = x mod n) as ->.
    { apply Zmod_unique with (q := x ÷ n); lia. }
    rewrite u32_small; [reflexivity|].
    pose proof (Z.mod_pos_bound x n); lia.
Qed.

Section Euclid.

Variables n r : Z.
Hypothesis n_range : 0 < n < 2^31.

Lemma egcd_inv_init : egcd_inv n r (egcd_init n (r mod n)).
Proof.
  unfold egcd_inv, egcd_init; cbn [st_x st_y st_a st_b].
  pose proof (Z.mod_pos_bound r n ltac:(lia)) as Hb.
  repeat split; try lia.
  - rewrite Z.gcd_mod_r. reflexivity.
  - exists (-1). lia.
  - exists (r / n). pose proof (Z.div_mod r n ltac:(lia)). lia.
Qed.

Lemma egcd_inv_b (s : egcd_state) : egcd_inv n r s -> - n <= st_b s <= n.
Proof.
  intros (Hxy & Hxn & _ & _ & _ & Ha & Hs).
  destruct Hs as [[Hsg E]|[Hsg E]]; nia.
Qed.

(** One iteration: the checked body returns what the exact body returns,
    the invariant is kept and the measure drops. *)
Lemma egcd_step (s : egcd_state) :
  egcd_inv n r s -> negb (st_y s =? 0) = true ->
  exists s', egcd_body s = Ok s' /\ egcd_body_exact s = Ok s' /\
             egcd_inv n r s' /\ (egcd_measure s' < egcd_measure s)%nat.
Proof.
  intros Hinv Hc. pose proof (egcd_inv_b s Hinv) as Hbb.
  destruct Hinv as (Hxy & Hxn & Hg & Hda & Hdb & Ha & Hs).
  destruct s as [x y a b]; cbn [st_x st_y st_a st_b] in *.
  destruct (Z.eqb_spec y 0) as [|Hy]; [discriminate|]. clear Hc.
  pose proof (Z.div_mod x y Hy) as Hdm.
  pose proof (Z.mod_pos_bound x y ltac:(lia)) as Hm.
  set (q := x / y) in *. set (y' := x mod y) in *.
  assert (Hq : 1 <= q) by nia.
  assert (Hqx : q <= x) by nia.
  assert (Hqb : - n <= q * b <= n /\ - n <= a - q * b <= n)
    by (destruct Hs as [[Hsg E]|[Hsg E]]; nia).
  exists {| st_x := y; st_y := y'; st_a := b; st_b := a - q * b |}.
  split; [|split; [|split]].
  - unfold egcd_body; cbn [st_x st_y st_a st_b]. fold q y'.
    rewrite s32_small by lia. unfold mul32, sub32.
    rewrite chk32_ok by lia. simpl. rewrite chk32_ok by lia. reflexivity.
  - reflexivity.
  - unfold egcd_inv; cbn [st_x st_y st_a st_b].
    split; [lia|]. split; [lia|]. split; [|split; [|split; [|split]]].
    + unfold y'. rewrite Z.gcd_mod_r. rewrite Z.gcd_comm. assumption.
    + assumption.
    + replace ((a - q * b) * r - y')
        with ((a * r - x) - q * (b * r - y)) by lia.
      apply Z.divide_sub_r; [assumption|]. now apply Z.divide_mul_r.
    + lia.
    + destruct Hs as [[Hsg E]|[Hsg E]]; [right|left]; nia.
  - unfold egcd_measure; cbn [st_x st_y st_a st_b].
    assert (Hle : 2 * (2 * (y * y') + 1) <= 2 * (x * y) + 1) by nia.
    apply Z.log2_le_mono in Hle.
    rewrite Z.log2_double in Hle by nia.
    pose proof (Z.log2_nonneg (2 * (y * y') + 1)). lia.
Qed.

Lemma egcd_measure_init (y : Z) :
  0 <= y < n -> (egcd_measure (egcd_init n y) <= 62)%nat.
Proof.
  intros Hy. unfold egcd_measure, egcd_init; cbn [st_x st_y st_a st_b].
  enough (Z.log2 (2 * (n * y) + 1) < 63) by lia.
  apply Z.log2_lt_pow2; [nia|].
  change (2^63) with (2 * (2^31 * 2^31)). nia.
Qed.

(** The loop runs to its exit within 62 iterations, on checked and on exact
    arithmetic alike, and leaves [x = gcd n r] with [a * r = x (mod n)]. *)
Lemma egcd_loop (fuel : nat) :
  (62 <= fuel)%nat ->
  exists s,
    while fuel (fun s => negb (st_y s =? 0)) egcd_body
      (egcd_init n (r mod n)) = Ok s /\
    while fuel (fun s => negb (st_y s =? 0)) egcd_body_exact
      (egcd_init n (r mod n)) = Ok s /\
    st_y s = 0 /\ st_x s = Z.gcd n r /\ (n | st_a s * r - st_x s) /\
    - n <= st_a s <= n.
Proof.
  intros Hfuel.
  pose proof (Z.mod_pos_bound r n ltac:(lia)) as Hy.
  pose proof (egcd_measure_init _ Hy) as Hm.
  destruct (while_rule (egcd_inv n r) egcd_measure
              (fun s => negb (st_y s =? 0)) egcd_body) with
    (fuel := fuel) (s := egcd_init n (r mod n))
    as (s & Hrun & Hinv & Hexit).
  - intros s Hs Hc. destruct (egcd_step s Hs Hc) as (s' & H1 & _ & H3 & H4).
    eauto.
  - apply egcd_inv_init.
  - lia.
  - exists s. split; [assumption|].
    assert (Hagree : forall f t, egcd_inv n r t ->
              while f (fun s => negb (st_y s =? 0)) egcd_body t =
              while f (fun s => negb (st_y s =? 0)) egcd_body_exact t).
    { induction f as [|f IH]; intros t Ht; cbn [while].
      - reflexivity.
      - destruct (negb (st_y t =? 0)) eqn:C; [|reflexivity].
        destruct (egcd_step t Ht C) as (t' & H1 & H2 & H3 & _).
        rewrite H1, H2. cbn [bind]. now apply IH. }
    rewrite <- Hagree by apply egcd_inv_init.
    split; [assumption|].
    destruct Hinv as (Hxy & Hxn & Hg & Hda & Hdb & Ha & Hs).
    destruct (Z.eqb_spec (st_y s) 0) as [E|E]; [|discriminate].
    rewrite E in Hg. rewrite Z.gcd_0_r_nonneg in Hg by lia.
    auto.
Qed.

Hypothesis coprime : Z.gcd n r = 1.
Hypothesis n_big : 1 < n.
Hypothesis r_range : 0 <= r.

Lemma mod_mult_inv_correct (fuel : nat) :
  (62 <= fuel)%nat ->
  exists v s,
    mod_mult_inv fuel n r = Ok v /\
    mod_mult_inv_exact fuel n r = Ok v /\
    0 <= v < n /\ (r * v) mod n = 1 /\
    while fuel (fun s => negb (st_y s =? 0)) egcd_body
      (egcd_init n (r mod n)) = Ok s /\
    st_y s = 0 /\ st_x s = 1 /\ v = st_a s mod n /\ - n <= st_a s <= n.
Proof.
  intros Hfuel.
  destruct (egcd_loop fuel Hfuel) as (s & Hm & He & Hy & Hx & Hd & Ha).
  rewrite coprime in Hx.
  exists (st_a s mod n), s.
  unfold mod_mult_inv, mod_mult_inv_exact, umod.
  destruct (Z.eqb_spec n 0) as [|_]; [lia|]. simpl bind at 1.
  rewrite Hm, He. simpl. rewrite Hx. simpl.
  rewrite s32_small by lia. rewrite mod_true by lia.
  repeat split; try (apply Z.mod_pos_bound; lia); try assumption; try lia.
  rewrite Z.mul_mod_idemp_r by lia.
  rewrite Hx in Hd. destruct Hd as [c Hc].
  symmetry. apply Zmod_unique with (q := c); lia.
Qed.

End Euclid.

(** ** The reduction step *)

Lemma land_mask (x k : Z) : 0 <= k -> Z.land x (2^k - 1) = x mod 2^k.
Proof.
  intros Hk. rewrite <- Z.land_ones by assumption.
  rewrite Z.ones_equiv. reflexivity.
Qed.

Lemma pow2_le_31 (k : Z) : 0 <= k <= 31 -> 0 < 2^k <= 2^31.
Proof.
  intros Hk. split; [apply Z.pow_pos_nonneg; lia|].
  apply Z.pow_le_mono_r; lia.
Qed.

(** The body of [REDC] on plain numbers: [N] the modulus, [k] the radix
    exponent, [ri] and [ni] the two inverses with [2^k * ri - 1 = ni * N]. *)
Lemma redc_body (N k ri ni x : Z) :
  0 <= k <= 31 -> 0 < N < 2^k -> 0 <= ni < 2^k ->
  2^k * ri - 1 = ni * N ->
  0 <= x < 2^k * N ->
  let mask := 2^k - 1 in
  let s := u32 (Z.land (u64 (Z.land x mask * ni)) mask) in
  let t := u64 (x + u64 (s * N)) in
  let u := u32 (Z.shiftr t k) in
  0 <= s < 2^k /\
  Z.land x mask * ni < 2^64 /\ s * N < 2^64 /\
  x + s * N < 2 * 2^k * N /\ x + s * N < 2^64 /\ t = x + s * N /\
  t mod 2^k = 0 /\ 0 <= u < 2 * N /\
  (if N <=? u then u32 (u - N) else u) = (x * ri) mod N.
Proof.
  intros Hk HN Hni Hid Hx mask s t u.
  pose proof (pow2_le_31 k Hk) as HR.
  assert (H62 : 2^31 * 2^31 < 2^64) by reflexivity.
  assert (H32 : 2^31 < 2^32) by reflexivity.
  subst mask s t u. rewrite !land_mask by lia.
  set (R := 2^k) in *.
  pose proof (Z.mod_pos_bound x R ltac:(lia)) as Hxm.
  pose proof (Z.div_mod x R ltac:(lia)) as Hxd.
  set (xm := x mod R) in *. set (q2 := x / R) in *.
  rewrite (u64_small (xm * ni)) by nia.
  pose proof (Z.mod_pos_bound (xm * ni) R ltac:(lia)) as Hsm.
  pose proof (Z.div_mod (xm * ni) R ltac:(lia)) as Hsd.
  set (s := (xm * ni) mod R) in *. set (q1 := (xm * ni) / R) in *.
  rewrite (u32_small s) by lia.
  rewrite (u64_small (s * N)) by nia.
  rewrite (u64_small (x + s * N)) by nia.
  assert (Ht : x + s * N = (q2 + xm * ri - q1 * N) * R) by nia.
  rewrite Z.shiftr_div_pow2 by lia. fold R.
  set (u := q2 + xm * ri - q1 * N) in *.
  assert (Hmod : (x + s * N) mod R = 0) by (rewrite Ht; apply Z.mod_mul; lia).
  assert (Hdiv : (x + s * N) / R = u) by (rewrite Ht; apply Z.div_mul; lia).
  rewrite Hmod, Hdiv.
  assert (Hu : 0 <= u < 2 * N) by nia.
  rewrite (u32_small u) by lia.
  do 8 (split; [nia|]).
  assert (Hxr : x * ri = N * (q1 + q2 * ni) + u) by nia.
  destruct (Z.leb_spec N u).
  - rewrite u32_small by lia.
    apply Zmod_unique with (q := q1 + q2 * ni + 1); lia.
  - apply Zmod_unique with (q := q1 + q2 * ni); lia.
Qed.

(** ** The constructor *)

Section Modulus.

Variable N : Z.
Hypothesis N_odd : Z.odd N = true.
Hypothesis N_range : 3 <= N <= 2^31 - 1.

Lemma bits_range : 2 <= bits N <= 31.
Proof.
  split.
  - unfold bits. destruct (Z.eqb_spec N 0); [lia|].
    enough (1 <= Z.log2 N) by lia.
    apply Z.log2_le_pow2; [lia|]. change (2^1) with 2. lia.
  - apply bits_le; lia.
Qed.

Lemma radix_range : N < 2 ^ bits N <= 2 * N.
Proof.
  pose proof (bits_spec N ltac:(lia)) as [Hlo Hhi].
  pose proof bits_range.
  split; [assumption|].
  replace (bits N) with (Z.succ (bits N - 1)) by lia.
  rewrite Z.pow_succ_r by lia. lia.
Qed.

Lemma radix_coprime : Z.gcd N (2 ^ bits N) = 1.
Proof.
  change (Z.coprime N (2 ^ bits N)). apply Z.coprime_pow_r.
  - pose proof bits_range. lia.
  - apply Z.coprime_Bezout. exists 1, (- (N / 2)).
    pose proof (Z.div_mod N 2 ltac:(lia)) as Hd.
    rewrite Zmod_odd, N_odd in Hd. lia.
Qed.

Lemma not_even : (N mod 2 =? 0) = false.
Proof. rewrite Zmod_odd, N_odd. reflexivity. Qed.

(** The steps of the constructor that the two programs share. *)
Lemma construct_steps (fuel : nat) :
  (64 <= fuel)%nat ->
  let R := 2 ^ bits N in
  exists ri,
    bit_length fuel N = Ok (bits N) /\
    u32 (Z.shiftl 1 (bits N)) = R /\ u32 (R - 1) = R - 1 /\
    mod_mult_inv fuel N R = Ok ri /\
    mod_mult_inv_exact fuel N R = Ok ri /\
    params_ok N (bits N) ri (u32 (u64 (u64 (R * ri) - 1) / N)) /\
    u32 (u64 (R * R) mod N) = (R * R) mod N.
Proof.
  intros Hfuel R.
  pose proof bits_range as Hb. pose proof radix_range as HR.
  pose proof (pow2_le_31 (bits N) ltac:(lia)) as HR31. fold R in HR, HR31.
  assert (H62 : 2^31 * 2^31 < 2^64) by reflexivity.
  assert (H32 : 2^31 < 2^32) by reflexivity.
  destruct (mod_mult_inv_correct N R ltac:(lia) radix_coprime ltac:(lia)
              fuel ltac:(lia)) as (ri & s & Hm & He & Hri & Hinv & _).
  exists ri.
  split; [apply bit_length_correct; lia|].
  split; [rewrite Z.shiftl_mul_pow2, Z.mul_1_l by lia; apply u32_small; lia|].
  split; [apply u32_small; lia|].
  split; [assumption|]. split; [assumption|].
  pose proof (Z.div_mod (R * ri) N ltac:(lia)) as Hd. rewrite Hinv in Hd.
  set (q := R * ri / N) in *.
  assert (Hq : 0 <= q < R) by nia.
  assert (Hri0 : 0 < ri) by nia.
  rewrite (u64_small (R * ri)) by nia.
  rewrite (u64_small (R * ri - 1)) by nia.
  replace (R * ri - 1) with (q * N) by lia.
  rewrite Z.div_mul by lia. rewrite (u32_small q) by lia.
  split.
  - unfold params_ok. fold R. repeat split; try lia; assumption.
  - rewrite (u64_small (R * R)) by nia.
    pose proof (Z.mod_pos_bound (R * R) N ltac:(lia)).
    apply u32_small; lia.
Qed.

End Modulus.

Lemma reciprocal_mod_eq (fuel : nat) (n r : Z) :
  reciprocal_mod fuel n r = mod_mult_inv fuel n r.
Proof. reflexivity. Qed.

(** For a legal modulus both constructors return, with the same inverses. *)
Lemma construct_ok (fuel : nat) (N : Z) :
  Z.odd N = true -> 3 <= N <= 2^31 - 1 -> (64 <= fuel)%nat ->
  exists ri ni,
    Main2.construct fuel N =
      Ok (Main2.mk N (bits N) ri (2 ^ bits N - 1) ni
            ((2 ^ bits N * 2 ^ bits N) mod N)) /\
    Part0.construct fuel N =
      Ok (Part0.mk N (bits N) ri (2 ^ bits N - 1) ni) /\
    params_ok N (bits N) ri ni.
Proof.
  intros Hodd Hrange Hfuel.
  destruct (construct_steps N Hodd Hrange fuel Hfuel)
    as (ri & Hbl & Hr & Hmask & Hinv & _ & Hp & Hr2).
  pose proof (bits_range N Hrange) as Hb.
  exists ri, (u32 (u64 (u64 (2 ^ bits N * ri) - 1) / N)).
  assert (C1 : (N <? 3) = false) by (apply Z.ltb_ge; lia).
  assert (C3 : (N >? INT32_MAX) = false).
  { unfold INT32_MAX. rewrite Z.gtb_ltb. apply Z.ltb_ge. lia. }
  assert (C4 : (bits N <=? 31) = true) by (apply Z.leb_le; lia).
  split; [|split; [|assumption]].
  - unfold Main2.construct.
    rewrite C1, (not_even N Hodd), C3, Hbl. cbn [bind]. rewrite C4. cbn [negb].
    rewrite Hr, Hmask, Hinv. cbn [bind]. rewrite Hr2. reflexivity.
  - unfold Part0.construct.
    rewrite C1, (not_even N Hodd), C3, Hbl. cbn [bind]. rewrite C4. cbn [negb].
    rewrite Hr, Hmask, reciprocal_mod_eq, Hinv. reflexivity.
Qed.

(** A constructor that returns was given a legal modulus. *)
Lemma Main2_construct_legal (fuel : nat) (N : Z) (m : Main2.Montgomery) :
  Main2.construct fuel N = Ok m -> Z.odd N = true /\ 3 <= N <= 2^31 - 1.
Proof.
  unfold Main2.construct, INT32_MAX.
  destruct (Z.ltb_spec N 3); [discriminate|].
  rewrite Zmod_odd. destruct (Z.odd N); [|discriminate].
  change (1 =? 0) with false. cbv iota.
  rewrite Z.gtb_ltb. destruct (Z.ltb_spec (2^31 - 1) N); [discriminate|].
  intros _. split; [reflexivity | lia].
Qed.

Lemma Part0_construct_legal (fuel : nat) (N : Z) (m : Part0.Montgomery) :
  Part0.construct fuel N = Ok m -> Z.odd N = true /\ 3 <= N <= 2^31 - 1.
Proof.
  unfold Part0.construct, INT32_MAX.
  destruct (Z.ltb_spec N 3); [discriminate|].
  rewrite Zmod_odd. destruct (Z.odd N); [|discriminate].
  change (1 =? 0) with false. cbv iota.
  rewrite Z.gtb_ltb. destruct (Z.ltb_spec (2^31 - 1) N); [discriminate|].
  intros _. split; [reflexivity | lia].
Qed.

(** The contexts of the two programs for one modulus, in closed form. *)
Lemma contexts (fuel : nat) (N : Z) (m2 : Main2.Montgomery) (m1 : Part0.Montgomery) :
  (64 <= fuel)%nat ->
  Main2.construct fuel N = Ok m2 -> Part0.construct fuel N = Ok m1 ->
  exists ri ni,
    m2 = Main2.mk N (bits N) ri (2 ^ bits N - 1) ni
           ((2 ^ bits N * 2 ^ bits N) mod N) /\
    m1 = Part0.mk N (bits N) ri (2 ^ bits N - 1) ni /\
    params_ok N (bits N) ri ni /\ 2 <= bits N <= 31 /\
    N < 2 ^ bits N <= 2^31 /\ 3 <= N.
Proof.
  intros Hfuel H2 H1.
  destruct (Main2_construct_legal _ _ _ H2) as [Hodd Hrange].
  destruct (construct_ok fuel N Hodd Hrange Hfuel) as (ri & ni & E2 & E1 & Hp).
  exists ri, ni. rewrite E2 in H2. rewrite E1 in H1.
  pose proof (bits_range N Hrange) as Hb.
  pose proof (radix_range N Hrange).
  pose proof (pow2_le_31 (bits N) ltac:(lia)).
  repeat split; try congruence; try lia; apply Hp.
Qed.

(** ** The member functions on a constructed context *)

Lemma inv_cancel (N R ri ni y : Z) :
  R * ri - 1 = ni * N -> (y * (R * ri)) mod N = y mod N.
Proof.
  intros Hid. replace (R * ri) with (1 + ni * N) by lia.
  replace (y * (1 + ni * N)) with (y + y * ni * N) by ring.
  destruct (Z.eq_dec N 0) as [->|HN].
  - now rewrite Z.mul_0_r, Z.add_0_r.
  - now apply Z.mod_add.
Qed.

Section Methods.

Variables N ri ni : Z.
Hypothesis Hp : params_ok N (bits N) ri ni.
Hypothesis Hk : 2 <= bits N <= 31.
Hypothesis HR : N < 2 ^ bits N <= 2^31.
Hypothesis HN : 3 <= N.

Let R : Z := 2 ^ bits N.
Let m2 : Main2.Montgomery :=
  Main2.mk N (bits N) ri (R - 1) ni ((R * R) mod N).
Let m1 : Part0.Montgomery := Part0.mk N (bits N) ri (R - 1) ni.

Lemma params_id : R * ri - 1 = ni * N.
Proof. apply Hp. Qed.

Lemma Main2_REDC_value (x : Z) :
  0 <= x < R * N -> fst (Main2.REDC x m2) = (x * ri) mod N.
Proof.
  intros Hx. destruct Hp as (_ & Hri & _ & Hni & Hid).
  pose proof (redc_body N (bits N) ri ni x ltac:(lia) ltac:(lia)
                ltac:(lia) Hid Hx) as H.
  cbv zeta in H. apply H.
Qed.

Lemma Part0_multiply_value (a b : Z) :
  0 <= a < 2^32 -> 0 <= b < 2^32 -> a * b < R * N ->
  fst (Part0.multiply a b m1) = (a * b * ri) mod N.
Proof.
  intros Ha Hb Hx. destruct Hp as (_ & Hri & _ & Hni & Hid).
  pose proof (redc_body N (bits N) ri ni (a * b) ltac:(lia) ltac:(lia)
                ltac:(lia) Hid ltac:(nia)) as H.
  cbv zeta in H. unfold Part0.multiply, Part0.multiply_t, Part0.multiply_s.
  cbn [Part0.n Part0.r_bit_len Part0.r_mask Part0.k m1 fst].
  assert (H64 : 2^32 * 2^32 = 2^64) by reflexivity.
  rewrite (u64_small (a * b)) by nia. apply H.
Qed.

Lemma Main2_multiply_value (a b : Z) :
  0 <= a < N -> 0 <= b < N ->
  fst (Main2.multiply a b m2) = (a * b * ri) mod N.
Proof.
  intros Ha Hb. unfold Main2.multiply.
  assert (H64 : 2^31 * 2^31 < 2^64) by reflexivity.
  rewrite u64_small by nia. apply Main2_REDC_value. unfold R. nia.
Qed.

Lemma Main2_convert_out_value (x : Z) :
  0 <= x < N -> fst (Main2.convert_out x m2) = (x * ri) mod N.
Proof.
  intros Hx. unfold Main2.convert_out. apply Main2_REDC_value. unfold R. nia.
Qed.

Lemma Main2_convert_in_value (x : Z) :
  0 <= x < 2^32 -> fst (Main2.convert_in x m2) = (x * R) mod N.
Proof.
  intros Hx. unfold Main2.convert_in. cbn [Main2.n Main2.r2_mod_n m2].
  assert (H64 : 2^31 * 2^31 < 2^64) by reflexivity.
  pose proof (Z.mod_pos_bound (R * R) N ltac:(lia)) as Hr2.
  pose proof (Z.mod_pos_bound x N ltac:(lia)) as Hxm.
  assert (E : (if N <=? x then x mod N else x) = x mod N).
  { destruct (Z.leb_spec N x); [reflexivity|].
    symmetry. apply Z.mod_small. lia. }
  rewrite E. rewrite u64_small by nia.
  rewrite Main2_REDC_value by (unfold R in *; nia).
  rewrite <- Z.mul_mod_idemp_l by lia.
  rewrite <- Z.mul_mod by lia. rewrite Z.mul_mod_idemp_l by lia.
  replace (x * (R * R) * ri) with (x * R * (R * ri)) by ring.
  apply inv_cancel with (ni := ni). apply params_id.
Qed.

Lemma Part0_convert_in_value (x : Z) :
  0 <= x < 2^32 -> fst (Part0.convert_in x m1) = (x * R) mod N.
Proof.
  intros Hx. unfold Part0.convert_in. cbn [Part0.n Part0.r_bit_len m1 fst].
  rewrite Z.shiftl_mul_pow2 by lia. fold R.
  assert (H64 : 2^32 * 2^31 < 2^64) by reflexivity.
  assert (H32 : 2^31 < 2^32) by reflexivity.
  rewrite u64_small by (unfold R; nia).
  pose proof (Z.mod_pos_bound (x * R) N ltac:(lia)).
  apply u32_small. lia.
Qed.

Lemma Part0_convert_out_value (x : Z) :
  0 <= x < 2^32 -> fst (Part0.convert_out x m1) = (x * ri) mod N.
Proof.
  intros Hx. unfold Part0.convert_out. cbn [Part0.n Part0.r_reciprocal m1 fst].
  destruct Hp as (_ & Hri & _).
  assert (H64 : 2^32 * 2^31 < 2^64) by reflexivity.
  assert (H32 : 2^31 < 2^32) by reflexivity.
  rewrite u64_small by nia.
  pose proof (Z.mod_pos_bound (x * ri) N ltac:(lia)).
  apply u32_small. lia.
Qed.

(** Into Montgomery form and back. *)
Lemma round_trip_algebra (x : Z) :
  0 <= x < N -> (((x * R) mod N) * ri) mod N = x.
Proof.
  intros Hx. rewrite Z.mul_mod_idemp_l by lia.
  rewrite <- Z.mul_assoc. rewrite (inv_cancel N R ri ni) by apply params_id.
  apply Z.mod_small. assumption.
Qed.

(** Two conversions in, a Montgomery product, one conversion out. *)
Lemma product_algebra (a b : Z) :
  (((((a * R) mod N) * ((b * R) mod N) * ri) mod N) * ri) mod N
  = (a * b) mod N.
Proof.
  rewrite Z.mul_mod_idemp_l by lia.
  rewrite <- Z.mul_assoc. rewrite <- Z.mul_mod_idemp_l by lia.
  rewrite <- Z.mul_mod by lia. rewrite Z.mul_mod_idemp_l by lia.
  replace (a * R * (b * R) * (ri * ri)) with (a * b * (R * ri) * (R * ri))
    by ring.
  rewrite (inv_cancel N R ri ni) by apply params_id.
  apply (inv_cancel N R ri ni), params_id.
Qed.

End Methods.

(** * The claims *)

(** C4. For every odd [n] in [3, 2^31-1] both constructors return a context
    (no exception, no failed assertion, no undefined behaviour), and with
    [R = 2^bit_length(n)] its fields satisfy [0 < r_inv_mod < n],
    [R * r_inv_mod = 1 (mod n)], [0 <= n_inv_mod <= r_mask = R - 1] and the
    exact identity [R * r_inv_mod - 1 = n_inv_mod * n]; the context of
    [part_000] holds the same values under the names [r_reciprocal] and [k].
    No member function changes the object it is called on. *)
Theorem construct_establishes_invariant (fuel : nat) (n : Z) :
  (64 <= fuel)%nat -> Z.odd n = true -> 3 <= n <= 2^31 - 1 ->
  exists m2 m1 r_bit_len,
    Main2.construct fuel n = Ok m2 /\ Part0.construct fuel n = Ok m1 /\
    bit_length fuel n = Ok r_bit_len /\
    Main2.n m2 = n /\ Main2.r_bit_len m2 = r_bit_len /\
    0 < Main2.r_inv_mod m2 < n /\
    (2 ^ r_bit_len * Main2.r_inv_mod m2) mod n = 1 /\
    0 <= Main2.n_inv_mod m2 <= Main2.r_mask m2 /\
    Main2.r_mask m2 = 2 ^ r_bit_len - 1 /\
    2 ^ r_bit_len * Main2.r_inv_mod m2 - 1 = Main2.n_inv_mod m2 * n /\
    (n * Main2.n_inv_mod m2) mod 2 ^ r_bit_len = 2 ^ r_bit_len - 1 /\
    Main2.r2_mod_n m2 = (2 ^ r_bit_len * 2 ^ r_bit_len) mod n /\
    Part0.n m1 = n /\ Part0.r_bit_len m1 = r_bit_len /\
    Part0.r_reciprocal m1 = Main2.r_inv_mod m2 /\
    Part0.r_mask m1 = Main2.r_mask m2 /\ Part0.k m1 = Main2.n_inv_mod m2 /\
    (forall x a b,
       snd (Main2.REDC x m2) = m2 /\ snd (Main2.convert_in x m2) = m2 /\
       snd (Main2.convert_out x m2) = m2 /\ snd (Main2.multiply a b m2) = m2 /\
       snd (Part0.convert_in x m1) = m1 /\ snd (Part0.convert_out x m1) = m1 /\
       snd (Part0.multiply a b m1) = m1).
Proof.
  intros Hfuel Hodd Hrange.
  destruct (construct_ok fuel n Hodd Hrange Hfuel) as (ri & ni & E2 & E1 & Hp).
  pose proof (bits_range n Hrange) as Hb.
  pose proof (radix_range n Hrange) as HR.
  pose proof (pow2_le_31 (bits n) ltac:(lia)) as HR31.
  destruct Hp as (_ & Hri & Hinv & Hni & Hid).
  eexists _, _, (bits n).
  split; [exact E2|]. split; [exact E1|].
  split; [apply bit_length_correct; lia|].
  cbn [Main2.n Main2.r_bit_len Main2.r_inv_mod Main2.r_mask Main2.n_inv_mod
       Main2.r2_mod_n Part0.n Part0.r_bit_len Part0.r_reciprocal Part0.r_mask
       Part0.k].
  repeat (split; [first [reflexivity | assumption | lia]|]).
  split.
  - symmetry. apply Zmod_unique with (q := ri - 1); lia.
  - do 6 (split; [first [reflexivity | assumption | lia]|]).
    intros x a b. repeat split; reflexivity.
Qed.

Lemma construct_establishes_invariant_witness :
  exists m2 m1 r_bit_len,
    Main2.construct 64 7 = Ok m2 /\ Part0.construct 64 7 = Ok m1 /\
    bit_length 64 7 = Ok r_bit_len /\
    Main2.n m2 = 7 /\ Main2.r_bit_len m2 = r_bit_len /\
    0 < Main2.r_inv_mod m2 < 7 /\
    (2 ^ r_bit_len * Main2.r_inv_mod m2) mod 7 = 1 /\
    0 <= Main2.n_inv_mod m2 <= Main2.r_mask m2 /\
    Main2.r_mask m2 = 2 ^ r_bit_len - 1 /\
    2 ^ r_bit_len * Main2.r_inv_mod m2 - 1 = Main2.n_inv_mod m2 * 7 /\
    (7 * Main2.n_inv_mod m2) mod 2 ^ r_bit_len = 2 ^ r_bit_len - 1 /\
    Main2.r2_mod_n m2 = (2 ^ r_bit_len * 2 ^ r_bit_len) mod 7 /\
    Part0.n m1 = 7 /\ Part0.r_bit_len m1 = r_bit_len /\
    Part0.r_reciprocal m1 = Main2.r_inv_mod m2 /\
    Part0.r_mask m1 = Main2.r_mask m2 /\ Part0.k m1 = Main2.n_inv_mod m2 /\
    (forall x a b,
       snd (Main2.REDC x m2) = m2 /\ snd (Main2.convert_in x m2) = m2 /\
       snd (Main2.convert_out x m2) = m2 /\ snd (Main2.multiply a b m2) = m2 /\
       snd (Part0.convert_in x m1) = m1 /\ snd (Part0.convert_out x m1) = m1 /\
       snd (Part0.multiply a b m1) = m1).
Proof.
  apply (construct_establishes_invariant 64 7); [lia | reflexivity | lia].
Defined.

(** C5, as the code has it. The constructors check, in this order, [n < 3]
    (message "Modulus must be >= 3."), [n] even ("Modulus must be odd.") and
    [n > INT32_MAX] ("Modulus must be less than 2^31."); the three exceptions
    differ. So [Construct(1)] and [Construct(2)] fail as too small,
    [Construct(4)] as even, and [Construct(2^31)], an even number, also fails
    as even: the too-large exception is reached by odd moduli above
    [2^31 - 1] only, such as [2^31 + 1]. *)
Theorem validation_order (fuel : nat) (n : Z) :
  let too_small := invalid_argument "Modulus must be >= 3." in
  let even := invalid_argument "Modulus must be odd." in
  let too_large := invalid_argument "Modulus must be less than 2^31." in
  (n < 3 -> Main2.construct fuel n = Throw too_small /\
            Part0.construct fuel n = Throw too_small) /\
  (3 <= n -> Z.even n = true ->
     Main2.construct fuel n = Throw even /\
     Part0.construct fuel n = Throw even) /\
  (3 <= n -> Z.odd n = true -> 2^31 - 1 < n ->
     Main2.construct fuel n = Throw too_large /\
     Part0.construct fuel n = Throw too_large) /\
  too_small <> even /\ even <> too_large /\ too_small <> too_large /\
  Main2.construct fuel 1 = Throw too_small /\
  Part0.construct fuel 1 = Throw too_small /\
  Main2.construct fuel 2 = Throw too_small /\
  Part0.construct fuel 2 = Throw too_small /\
  Main2.construct fuel 4 = Throw even /\
  Part0.construct fuel 4 = Throw even /\
  Main2.construct fuel (2^31) = Throw even /\
  Part0.construct fuel (2^31) = Throw even /\
  Main2.construct fuel (2^31 + 1) = Throw too_large /\
  Part0.construct fuel (2^31 + 1) = Throw too_large.
Proof.
  cbv zeta. split; [|split; [|split]].
  - intros H. unfold Main2.construct, Part0.construct.
    replace (n <? 3) with true by (symmetry; apply Z.ltb_lt; lia). auto.
  - intros H He. unfold Main2.construct, Part0.construct.
    replace (n <? 3) with false by (symmetry; apply Z.ltb_ge; lia).
    rewrite Zmod_odd, <- Z.negb_even, He. auto.
  - intros H Ho Hl. unfold Main2.construct, Part0.construct, INT32_MAX.
    replace (n <? 3) with false by (symmetry; apply Z.ltb_ge; lia).
    rewrite Zmod_odd, Ho. change (1 =? 0) with false. cbv iota.
    replace (n >? 2^31 - 1) with true
      by (symmetry; rewrite Z.gtb_ltb; apply Z.ltb_lt; lia).
    auto.
  - repeat split; try discriminate; reflexivity.
Qed.

(** C5 fails as stated: [Construct(2^31)] does not fail with the too-large
    exception; [2^31] is even and the even check comes first. *)
Lemma construct_2_31_is_not_too_large :
  Main2.construct 64 (2^31) = Throw (invalid_argument "Modulus must be odd.") /\
  Part0.construct 64 (2^31) = Throw (invalid_argument "Modulus must be odd.") /\
  Main2.construct 64 (2^31)
    <> Throw (invalid_argument "Modulus must be less than 2^31.") /\
  Part0.construct 64 (2^31)
    <> Throw (invalid_argument "Modulus must be less than 2^31.").
Proof. repeat split; try reflexivity; discriminate. Qed.

(** The contexts the two constructors return for [n], in closed form. *)
Ltac closed_contexts Hfuel H2 H1 :=
  let ri := fresh "ri" in
  let ni := fresh "ni" in
  let Hp := fresh "Hp" in
  let Hk := fresh "Hk" in
  let HR := fresh "HR" in
  let HN := fresh "HN" in
  destruct (contexts _ _ _ _ Hfuel H2 H1)
    as (ri & ni & -> & -> & Hp & Hk & HR & HN).

Lemma Main2_product_calls (a b : Z) (m : Main2.Montgomery) :
  Main2.product a b m =
  Main2.convert_out
    (fst (Main2.multiply (fst (Main2.convert_in a m))
            (fst (Main2.convert_in b m)) m)) m.
Proof. reflexivity. Qed.

Lemma Part0_product_calls (a b : Z) (m : Part0.Montgomery) :
  Part0.product a b m =
  Part0.convert_out
    (fst (Part0.multiply (fst (Part0.convert_in a m))
            (fst (Part0.convert_in b m)) m)) m.
Proof. reflexivity. Qed.

(** C1. For the contexts [m2] and [m1] that the two programs build from a
    modulus [n] (the constructors return only for odd [n] in [3, 2^31-1]) and
    all [a], [b] in [0, n): converting both in, multiplying and converting
    out gives [(a * b) mod n], in [main2.cpp] and in [part_000]. *)
Theorem homomorphism (fuel : nat) (n a b : Z)
    (m2 : Main2.Montgomery) (m1 : Part0.Montgomery) :
  (64 <= fuel)%nat ->
  Main2.construct fuel n = Ok m2 -> Part0.construct fuel n = Ok m1 ->
  0 <= a < n -> 0 <= b < n ->
  fst (Main2.product a b m2) = (a * b) mod n /\
  fst (Part0.product a b m1) = (a * b) mod n.
Proof.
  intros Hfuel H2 H1 Ha Hb. closed_contexts Hfuel H2 H1.
  assert (H32 : 2^31 < 2^32) by reflexivity.
  pose proof (Z.mod_pos_bound (a * 2 ^ bits n) n ltac:(lia)) as Ha'.
  pose proof (Z.mod_pos_bound (b * 2 ^ bits n) n ltac:(lia)) as Hb'.
  pose proof (Z.mod_pos_bound
                ((a * 2 ^ bits n) mod n * ((b * 2 ^ bits n) mod n) * ri) n
                ltac:(lia)) as Hc'.
  split.
  - rewrite Main2_product_calls.
    rewrite !(Main2_convert_in_value n ri ni Hp Hk HR HN) by lia.
    rewrite (Main2_multiply_value n ri ni Hp Hk HR HN) by lia.
    rewrite (Main2_convert_out_value n ri ni Hp Hk HR HN) by lia.
    apply (product_algebra n ri ni Hp HN).
  - rewrite Part0_product_calls.
    rewrite !(Part0_convert_in_value n ri ni Hk HR HN) by lia.
    rewrite (Part0_multiply_value n ri ni Hp Hk HR HN) by nia.
    rewrite (Part0_convert_out_value n ri ni Hp Hk HR HN) by lia.
    apply (product_algebra n ri ni Hp HN).
Qed.

Lemma homomorphism_witness :
  fst (Main2.product 1115177062 95490452
         (Main2.mk 1280541179 31 562449432 2147483647 943234765 253931806))
    = (1115177062 * 95490452) mod 1280541179 /\
  fst (Part0.product 1115177062 95490452
         (Part0.mk 1280541179 31 562449432 2147483647 943234765))
    = (1115177062 * 95490452) mod 1280541179.
Proof.
  apply (homomorphism 64 1280541179); [lia | reflexivity | reflexivity | lia | lia].
Defined.

(** C3. For the contexts of both programs and every [x] in [0, n),
    [convert_out(convert_in(x)) = x]. *)
Theorem round_trip (fuel : nat) (n x : Z)
    (m2 : Main2.Montgomery) (m1 : Part0.Montgomery) :
  (64 <= fuel)%nat ->
  Main2.construct fuel n = Ok m2 -> Part0.construct fuel n = Ok m1 ->
  0 <= x < n ->
  fst (Main2.convert_out (fst (Main2.convert_in x m2)) m2) = x /\
  fst (Part0.convert_out (fst (Part0.convert_in x m1)) m1) = x.
Proof.
  intros Hfuel H2 H1 Hx. closed_contexts Hfuel H2 H1.
  assert (H32 : 2^31 < 2^32) by reflexivity.
  pose proof (Z.mod_pos_bound (x * 2 ^ bits n) n ltac:(lia)) as Hx'.
  split.
  - rewrite (Main2_convert_in_value n ri ni Hp Hk HR HN) by lia.
    rewrite (Main2_convert_out_value n ri ni Hp Hk HR HN) by lia.
    apply (round_trip_algebra n ri ni Hp HN). assumption.
  - rewrite (Part0_convert_in_value n ri ni Hk HR HN) by lia.
    rewrite (Part0_convert_out_value n ri ni Hp Hk HR HN) by lia.
    apply (round_trip_algebra n ri ni Hp HN). assumption.
Qed.

Lemma round_trip_witness :
  fst (Main2.convert_out
         (fst (Main2.convert_in 5 (Main2.mk 7 3 1 7 1 1)))
         (Main2.mk 7 3 1 7 1 1)) = 5 /\
  fst (Part0.convert_out
         (fst (Part0.convert_in 5 (Part0.mk 7 3 1 7 1)))
         (Part0.mk 7 3 1 7 1)) = 5.
Proof.
  apply (round_trip 64 7); [lia | reflexivity | reflexivity | lia].
Defined.

(** C7. For one modulus, the REDC-based [convert_in] of [main2.cpp] and the
    direct [convert_in] of [part_000] return the same value for every [x] in
    [0, n), and so do the two [convert_out] ([REDC(x)] and
    [x * r_reciprocal mod n]). *)
Theorem variants_agree (fuel : nat) (n x : Z)
    (m2 : Main2.Montgomery) (m1 : Part0.Montgomery) :
  (64 <= fuel)%nat ->
  Main2.construct fuel n = Ok m2 -> Part0.construct fuel n = Ok m1 ->
  0 <= x < n ->
  fst (Main2.convert_in x m2) = fst (Part0.convert_in x m1) /\
  fst (Main2.convert_out x m2) = fst (Part0.convert_out x m1).
Proof.
  intros Hfuel H2 H1 Hx. closed_contexts Hfuel H2 H1.
  assert (H32 : 2^31 < 2^32) by reflexivity.
  split.
  - rewrite (Main2_convert_in_value n ri ni Hp Hk HR HN) by lia.
    rewrite (Part0_convert_in_value n ri ni Hk HR HN) by lia. reflexivity.
  - rewrite (Main2_convert_out_value n ri ni Hp Hk HR HN) by lia.
    rewrite (Part0_convert_out_value n ri ni Hp Hk HR HN) by lia. reflexivity.
Qed.

Lemma variants_agree_witness :
  fst (Main2.convert_in 1115177062
         (Main2.mk 1280541179 31 562449432 2147483647 943234765 253931806))
  = fst (Part0.convert_in 1115177062
           (Part0.mk 1280541179 31 562449432 2147483647 943234765)) /\
  fst (Main2.convert_out 1115177062
         (Main2.mk 1280541179 31 562449432 2147483647 943234765 253931806))
  = fst (Part0.convert_out 1115177062
           (Part0.mk 1280541179 31 562449432 2147483647 943234765)).
Proof.
  apply (variants_agree 64 1280541179); [lia | reflexivity | reflexivity | lia].
Defined.

(** C9. [convert_in] is total on [uint32_t]: for the contexts of both
    programs and every [x] below [2^32], also [x >= n], it returns
    [(x * R) mod n] with [R = 2^r_bit_len]. *)
Theorem convert_in_total (fuel : nat) (n x : Z)
    (m2 : Main2.Montgomery) (m1 : Part0.Montgomery) :
  (64 <= fuel)%nat ->
  Main2.construct fuel n = Ok m2 -> Part0.construct fuel n = Ok m1 ->
  0 <= x < 2^32 ->
  fst (Main2.convert_in x m2) = (x * 2 ^ Main2.r_bit_len m2) mod n /\
  fst (Part0.convert_in x m1) = (x * 2 ^ Part0.r_bit_len m1) mod n.
Proof.
  intros Hfuel H2 H1 Hx. closed_contexts Hfuel H2 H1.
  split.
  - apply (Main2_convert_in_value n ri ni Hp Hk HR HN). assumption.
  - apply (Part0_convert_in_value n ri ni Hk HR HN). assumption.
Qed.

Lemma convert_in_total_witness :
  fst (Main2.convert_in 4294967295 (Main2.mk 7 3 1 7 1 1))
    = (4294967295 * 2 ^ Main2.r_bit_len (Main2.mk 7 3 1 7 1 1)) mod 7 /\
  fst (Part0.convert_in 4294967295 (Part0.mk 7 3 1 7 1))
    = (4294967295 * 2 ^ Part0.r_bit_len (Part0.mk 7 3 1 7 1)) mod 7.
Proof.
  apply (convert_in_total 64 7); [lia | reflexivity | reflexivity | lia].
Defined.

(** C2. For a constructed context, [R = 2^r_bit_len] and every [uint64_t]
    [x] with [0 <= x < R * n]: [REDC(x)] is [x * r_inv_mod mod n], where
    [r_inv_mod] is the inverse of [R] modulo [n], so it is the [u] in
    [0, n) with [u * R = x (mod n)]. None of [x], [s * n] and [x + s * n]
    reaches [2^64], [t = x + s * n] is a multiple of [R] below [2 * R * n],
    and [t >> r_bit_len] is below [2 * n], so one subtraction of [n] is
    enough. [multiply] of [part_000] runs the same steps on [x = a * b]. *)
Theorem REDC_correct (fuel : nat) (n x : Z)
    (m2 : Main2.Montgomery) (m1 : Part0.Montgomery) :
  (64 <= fuel)%nat ->
  Main2.construct fuel n = Ok m2 -> Part0.construct fuel n = Ok m1 ->
  0 <= x < 2 ^ Main2.r_bit_len m2 * n ->
  let R := 2 ^ Main2.r_bit_len m2 in
  let s := Main2.REDC_s m2 x in
  let t := Main2.REDC_t m2 x in
  let u := fst (Main2.REDC x m2) in
  (R * Main2.r_inv_mod m2) mod n = 1 /\
  u = (x * Main2.r_inv_mod m2) mod n /\ 0 <= u < n /\
  (u * R) mod n = x mod n /\
  x < 2^64 /\ Z.land x (Main2.r_mask m2) * Main2.n_inv_mod m2 < 2^64 /\
  s * n < 2^64 /\ x + s * n < 2^64 /\
  t = x + s * n /\ t < 2 * R * n /\ t mod R = 0 /\
  u32 (Z.shiftr t (Main2.r_bit_len m2)) < 2 * n /\
  (forall a b, 0 <= a < 2^32 -> 0 <= b < 2^32 -> a * b = x ->
     Part0.multiply_s m1 x = s /\ Part0.multiply_t m1 x = t /\
     fst (Part0.multiply a b m1) = u).
Proof.
  intros Hfuel H2 H1 Hx. closed_contexts Hfuel H2 H1.
  cbn [Main2.r_bit_len Main2.r_inv_mod Main2.r_mask Main2.n_inv_mod] in *.
  cbv zeta.
  rewrite (Main2_REDC_value n ri ni Hp Hk HR HN) by assumption.
  assert (Hp' := Hp). destruct Hp' as (_ & Hri & Hinv & Hni & Hid).
  pose proof (redc_body n (bits n) ri ni x ltac:(lia) ltac:(lia)
                ltac:(lia) Hid Hx) as H.
  cbv zeta in H.
  destruct H as (Hs & Hland & Hsn & Ht2 & Ht64 & Ht & Htm & Hu & _).
  unfold Main2.REDC_t, Main2.REDC_s.
  cbn [Main2.n Main2.r_mask Main2.n_inv_mod].
  pose proof (Z.mod_pos_bound (x * ri) n ltac:(lia)) as Hb.
  assert (H62 : 2^31 * 2^31 < 2^64) by reflexivity.
  split; [assumption|]. split; [reflexivity|]. split; [assumption|].
  split.
  { rewrite Z.mul_mod_idemp_l by lia. rewrite <- Z.mul_assoc.
    rewrite (Z.mul_comm ri). apply (inv_cancel n _ ri ni). assumption. }
  split; [nia|]. split; [assumption|]. split; [assumption|].
  split; [assumption|]. split; [assumption|].
  split; [rewrite Ht; lia|]. split; [assumption|]. split; [lia|].
  intros a b Ha Hb' Hab. split; [reflexivity|]. split; [reflexivity|].
  subst x. apply (Part0_multiply_value n ri ni Hp Hk HR HN); lia.
Qed.

Lemma REDC_correct_witness :
  let m2 := Main2.mk 7 3 1 7 1 1 in
  let m1 := Part0.mk 7 3 1 7 1 in
  let R := 2 ^ Main2.r_bit_len m2 in
  let s := Main2.REDC_s m2 30 in
  let t := Main2.REDC_t m2 30 in
  let u := fst (Main2.REDC 30 m2) in
  (R * Main2.r_inv_mod m2) mod 7 = 1 /\
  u = (30 * Main2.r_inv_mod m2) mod 7 /\ 0 <= u < 7 /\
  (u * R) mod 7 = 30 mod 7 /\
  30 < 2^64 /\ Z.land 30 (Main2.r_mask m2) * Main2.n_inv_mod m2 < 2^64 /\
  s * 7 < 2^64 /\ 30 + s * 7 < 2^64 /\
  t = 30 + s * 7 /\ t < 2 * R * 7 /\ t mod R = 0 /\
  u32 (Z.shiftr t (Main2.r_bit_len m2)) < 2 * 7 /\
  (forall a b, 0 <= a < 2^32 -> 0 <= b < 2^32 -> a * b = 30 ->
     Part0.multiply_s m1 30 = s /\ Part0.multiply_t m1 30 = t /\
     fst (Part0.multiply a b m1) = u).
Proof.
  apply (REDC_correct 64 7 30); [lia | reflexivity | reflexivity | ].
  cbn [Main2.r_bit_len]. lia.
Defined.

(** ** Signed 32-bit safety of the Euclidean loop *)

Lemma in_int32_iff (z : Z) : in_int32 z = true <-> - 2^31 <= z <= 2^31 - 1.
Proof.
  unfold in_int32, INT32_MIN, INT32_MAX.
  rewrite andb_true_iff, !Z.leb_le. reflexivity.
Qed.

Lemma egcd_reach_inv (n r : Z) (s : egcd_state) :
  0 < n < 2^31 -> egcd_reach n r s -> egcd_inv n r s.
Proof.
  intros Hn Hreach. induction Hreach as [|s s' _ IH Hy Hstep].
  - apply egcd_inv_init. assumption.
  - assert (C : negb (st_y s =? 0) = true).
    { destruct (Z.eqb_spec (st_y s) 0); [contradiction | reflexivity]. }
    destruct (egcd_step n r Hn s IH C) as (s'' & _ & E & Hinv & _).
    congruence.
Qed.

Lemma egcd_inv_safe (n r : Z) (s : egcd_state) :
  0 < n < 2^31 -> egcd_inv n r s -> int32_safe n s.
Proof.
  intros Hn Hinv. pose proof (egcd_inv_b n r Hn s Hinv) as Hb.
  destruct Hinv as (Hxy & Hxn & _ & _ & _ & Ha & Hs).
  unfold int32_safe. rewrite !in_int32_iff.
  split; [lia|]. split; [lia|]. split.
  - intros Hy.
    pose proof (Z.div_mod (st_x s) (st_y s) Hy) as Hdm.
    pose proof (Z.mod_pos_bound (st_x s) (st_y s) ltac:(lia)) as Hm.
    set (q := st_x s / st_y s) in *.
    assert (Hq : 1 <= q <= st_x s) by nia.
    rewrite s32_small by lia. rewrite ?in_int32_iff.
    split; [reflexivity|].
    destruct Hs as [[Hsg E]|[Hsg E]]; nia.
  - intros _. rewrite s32_small by lia. rewrite ?in_int32_iff.
    pose proof (Z.rem_bound_abs (st_a s) n ltac:(lia)).
    split; [reflexivity|]. split; [lia|]. intros Hneg.
    rewrite ?in_int32_iff. lia.
Qed.

(** The truncating remainder, shifted up by [n] when negative, is the true
    modulo. *)
Lemma true_modulo (x n : Z) :
  0 < n ->
  x mod n = if Z.rem x n <? 0 then Z.rem x n + n else Z.rem x n.
Proof.
  intros Hn. pose proof (Z.quot_rem' x n) as Hq.
  pose proof (Z.rem_bound_abs x n ltac:(lia)) as Hb.
  destruct (Z.ltb_spec (Z.rem x n) 0).
  - symmetry. apply Zmod_unique with (q := x ÷ n - 1); lia.
  - symmetry. apply Zmod_unique with (q := x ÷ n); lia.
Qed.

(** C6. For every odd [n >= 3] and [r = 2^bit_length(n)], both [uint32_t]:
    [mod_mult_inv(n, r)], and [reciprocal_mod(n, r)] of [part_000], run
    their loop to the end, find the last remainder equal to 1, so they do
    not throw, and return [v] in [0, n) with [r * v = 1 (mod n)]. The value
    returned is the last coefficient [a] reduced by [mod], which is the true
    modulo: the truncating remainder, plus [n] when it is negative. *)
Theorem inverse_found (fuel : nat) (n r k : Z) :
  (64 <= fuel)%nat -> Z.odd n = true -> 3 <= n < 2^32 ->
  bit_length fuel n = Ok k -> r = 2 ^ k -> r < 2^32 ->
  exists v s,
    mod_mult_inv fuel n r = Ok v /\ reciprocal_mod fuel n r = Ok v /\
    0 <= v < n /\ (r * v) mod n = 1 /\
    while fuel (fun s => negb (st_y s =? 0)) egcd_body
      (egcd_init n (r mod n)) = Ok s /\
    st_y s = 0 /\ st_x s = 1 /\
    mod_ (st_a s) (s32 n) = Ok v /\ v = st_a s mod n /\
    v = (if Z.rem (st_a s) n <? 0 then Z.rem (st_a s) n + n
         else Z.rem (st_a s) n) /\
    (forall x, - 2^31 <= x < 2^31 -> mod_ x (s32 n) = Ok (x mod n)).
Proof.
  intros Hfuel Hodd Hn Hbl Hr Hr32.
  rewrite bit_length_correct in Hbl by lia.
  injection Hbl as <-. subst r.
  pose proof (bits_nonneg n) as Hb0.
  assert (Hb : bits n < 32) by (apply (Z.pow_lt_mono_r_iff 2); lia).
  pose proof (bits_spec n ltac:(lia)) as [_ Hhi].
  pose proof (pow2_le_31 (bits n) ltac:(lia)) as HR31.
  assert (Hrange : 3 <= n <= 2^31 - 1) by lia.
  destruct (mod_mult_inv_correct n (2 ^ bits n) ltac:(lia)
              (radix_coprime n Hodd Hrange) ltac:(lia) fuel ltac:(lia))
    as (v & s & Hm & _ & Hv & Hinv & Hloop & Hy & Hx & Hva & Ha).
  exists v, s.
  split; [assumption|]. split; [rewrite reciprocal_mod_eq; assumption|].
  split; [assumption|]. split; [assumption|]. split; [assumption|].
  split; [assumption|]. split; [assumption|].
  rewrite s32_small by lia.
  split; [rewrite mod_true by lia; congruence|].
  split; [assumption|].
  split; [rewrite Hva; apply true_modulo; lia|].
  intros x Hx'. apply mod_true; lia.
Qed.

Lemma inverse_found_witness :
  exists v s,
    mod_mult_inv 64 2345 4096 = Ok v /\ reciprocal_mod 64 2345 4096 = Ok v /\
    0 <= v < 2345 /\ (4096 * v) mod 2345 = 1 /\
    while 64 (fun s => negb (st_y s =? 0)) egcd_body
      (egcd_init 2345 (4096 mod 2345)) = Ok s /\
    st_y s = 0 /\ st_x s = 1 /\
    mod_ (st_a s) (s32 2345) = Ok v /\ v = st_a s mod 2345 /\
    v = (if Z.rem (st_a s) 2345 <? 0 then Z.rem (st_a s) 2345 + 2345
         else Z.rem (st_a s) 2345) /\
    (forall x, - 2^31 <= x < 2^31 -> mod_ x (s32 2345) = Ok (x mod 2345)).
Proof.
  apply (inverse_found 64 2345 4096 12);
    [lia | reflexivity | lia | reflexivity | reflexivity | lia].
Defined.

(** C10. Under the constructor's preconditions (odd [n] in [3, 2^31-1],
    [r = 2^bit_length(n)]) the checked computation of [mod_mult_inv] and
    [reciprocal_mod] returns, and returns what the computation on exact
    integers returns; in every state the loop reaches, [a], [b], the
    converted quotient [x / y], the product [(x / y) * b], the difference
    [a - (x / y) * b] and, after the loop, [x % n] and [result + n] of [mod]
    are within [int32_t]. *)
Theorem int32_safety (fuel : nat) (n r k : Z) :
  (64 <= fuel)%nat -> Z.odd n = true -> 3 <= n <= 2^31 - 1 ->
  bit_length fuel n = Ok k -> r = 2 ^ k ->
  (exists v, mod_mult_inv fuel n r = Ok v /\ reciprocal_mod fuel n r = Ok v /\
             mod_mult_inv_exact fuel n r = Ok v) /\
  (forall s, egcd_reach n r s -> int32_safe n s) /\
  (forall s, egcd_reach n r s -> st_y s <> 0 ->
             egcd_body s = egcd_body_exact s).
Proof.
  intros Hfuel Hodd Hn Hbl Hr.
  rewrite bit_length_correct in Hbl by lia.
  injection Hbl as <-. subst r.
  destruct (mod_mult_inv_correct n (2 ^ bits n) ltac:(lia)
              (radix_coprime n Hodd Hn) ltac:(lia) fuel ltac:(lia))
    as (v & s & Hm & He & _).
  split; [|split].
  - exists v. split; [exact Hm|]. split; [exact Hm | exact He].
  - intros t Ht. apply egcd_inv_safe with (r := 2 ^ bits n); [lia|].
    apply egcd_reach_inv; [lia | assumption].
  - intros t Ht Hy.
    assert (C : negb (st_y t =? 0) = true).
    { destruct (Z.eqb_spec (st_y t) 0); [contradiction | reflexivity]. }
    destruct (egcd_step n (2 ^ bits n) ltac:(lia) t
                (egcd_reach_inv n (2 ^ bits n) t ltac:(lia) Ht) C)
      as (t' & E1 & E2 & _).
    congruence.
Qed.

Lemma int32_safety_witness :
  (exists v, mod_mult_inv 64 2345 4096 = Ok v /\
             reciprocal_mod 64 2345 4096 = Ok v /\
             mod_mult_inv_exact 64 2345 4096 = Ok v) /\
  (forall s, egcd_reach 2345 4096 s -> int32_safe 2345 s) /\
  (forall s, egcd_reach 2345 4096 s -> st_y s <> 0 ->
             egcd_body s = egcd_body_exact s).
Proof.
  apply (int32_safety 64 2345 4096 12);
    [lia | reflexivity | lia | reflexivity | reflexivity].
Defined.

(** ** Hensel lifting *)

Lemma u64_low_bits (z k : Z) : 0 <= k <= 64 -> u64 z mod 2^k = z mod 2^k.
Proof.
  intros Hk. unfold u64. apply Z.mod_mod_divide.
  exists (2 ^ (64 - k)). rewrite <- Z.pow_add_r by lia. f_equal. lia.
Qed.

(** The low bits of [f = q * a + 1ULL] are those of the exact value. *)
Lemma f_low_bits (q a k : Z) :
  0 <= k <= 64 -> u64 (u64 (q * a) + 1) mod 2^k = (q * a + 1) mod 2^k.
Proof.
  intros Hk. rewrite u64_low_bits by assumption.
  assert (0 < 2^k) by (apply Z.pow_pos_nonneg; lia).
  rewrite <- Z.add_mod_idemp_l by lia. rewrite u64_low_bits by assumption.
  apply Z.add_mod_idemp_l. lia.
Qed.

(** From a solution modulo [P] to one modulo [2 * P], for an odd [q]: either
    [a] itself or [a + P]. *)
Lemma lift_one_bit (q a P : Z) :
  0 < P -> Z.odd q = true -> (q * a + 1) mod P = 0 ->
  (q * a + 1) mod (2 * P) <> 0 -> (q * (a + P) + 1) mod (2 * P) = 0.
Proof.
  intros HP Hq H0 H1.
  apply Z.mod_divide in H0; [|lia]. destruct H0 as [j Hj].
  pose proof (Z.div_mod q 2 ltac:(lia)) as Hq2.
  rewrite Zmod_odd, Hq in Hq2.
  pose proof (Z.div_mod j 2 ltac:(lia)) as Hj2.
  rewrite Zmod_odd in Hj2.
  destruct (Z.odd j).
  - apply Z.mod_divide; [lia|]. exists (j / 2 + q / 2 + 1). nia.
  - exfalso. apply H1. apply Z.mod_divide; [lia|]. exists (j / 2). nia.
Qed.

(** The inner search of a lifting step ends on the first or on the second
    candidate. *)
Lemma hensel_search_spec (inner : nat) (q a_prev k : Z) :
  (2 <= inner)%nat -> 0 <= q < 2^64 -> Z.odd q = true -> 2 <= k <= 32 ->
  0 <= a_prev < 2 ^ (k - 1) -> (q * a_prev + 1) mod 2 ^ (k - 1) = 0 ->
  exists s,
    hensel_search inner q a_prev (2 ^ (k - 1)) (2 ^ k - 1) = Ok s /\
    0 <= se_a s < 2 ^ k /\ (q * se_a s + 1) mod 2 ^ k = 0 /\
    1 <= se_t s <= 2.
Proof.
  intros Hinner Hq Hodd Hk Ha H0.
  destruct inner as [|[|i]]; try lia.
  assert (HP : 0 < 2 ^ (k - 1)) by (apply Z.pow_pos_nonneg; lia).
  assert (HP31 : 2 ^ (k - 1) <= 2^31) by (apply Z.pow_le_mono_r; lia).
  assert (H2P : 2 ^ k = 2 * 2 ^ (k - 1)).
  { replace k with (Z.succ (k - 1)) at 1 by lia. apply Z.pow_succ_r. lia. }
  assert (H64 : 2^31 + 2^31 < 2^64) by reflexivity.
  unfold hensel_search, do_while, search_body.
  cbn [bind while se_f se_t se_a].
  rewrite Z.mul_0_r. change (u64 0) with 0. rewrite Z.add_0_r.
  change (u64 (0 + 1)) with 1.
  rewrite (u64_small a_prev) by lia.
  rewrite land_mask, f_low_bits by lia.
  destruct (Z.eqb_spec ((q * a_prev + 1) mod 2 ^ k) 0) as [E|E]; cbn [negb].
  - eexists. split; [reflexivity|]. cbn [se_a se_t].
    repeat split; first [lia | assumption].
  - cbn [bind while se_f se_t se_a].
    rewrite Z.mul_1_r. change (u64 (1 + 1)) with 2.
    rewrite (u64_small (2 ^ (k - 1))) by lia.
    rewrite (u64_small (a_prev + 2 ^ (k - 1))) by lia.
    assert (E' : (q * (a_prev + 2 ^ (k - 1)) + 1) mod 2 ^ k = 0).
    { rewrite H2P in *. apply lift_one_bit; assumption. }
    destruct i; cbn [while se_f]; rewrite land_mask, f_low_bits by lia;
      rewrite E'; cbn [Z.eqb negb];
      (eexists; split; [reflexivity|]; cbn [se_a se_t];
       repeat split; first [lia | assumption]).
Qed.

Lemma hensel_step (inner : nat) (r q : Z) (h : hensel_state) :
  (2 <= inner)%nat -> 0 <= q < 2^64 -> Z.odd q = true -> 1 <= r <= 31 ->
  hensel_inv r q h -> (hs_k h <=? r) = true ->
  exists h', hensel_body inner q h = Ok h' /\ hensel_inv r q h' /\
             (Z.to_nat (r + 1 - hs_k h') < Z.to_nat (r + 1 - hs_k h))%nat.
Proof.
  intros Hinner Hq Hodd Hr (Hk & Hc & Hmask & Ha & H0) Hcond.
  apply Z.leb_le in Hcond.
  destruct (hensel_search_spec inner q (hs_a_prev h) (hs_k h) Hinner Hq Hodd
              ltac:(lia) Ha H0) as (s & Hs & Hsa & Hs0 & _).
  unfold hensel_body. rewrite Hc, Hmask, Hs. cbn [bind].
  eexists. split; [reflexivity|].
  assert (HP : 0 < 2 ^ (hs_k h - 1)) by (apply Z.pow_pos_nonneg; lia).
  assert (HP31 : 2 ^ (hs_k h - 1) <= 2^31) by (apply Z.pow_le_mono_r; lia).
  assert (H2P : 2 ^ hs_k h = 2 * 2 ^ (hs_k h - 1)).
  { replace (hs_k h) with (Z.succ (hs_k h - 1)) at 1 by lia.
    apply Z.pow_succ_r. lia. }
  assert (H64 : 4 * 2^31 + 1 < 2^64) by reflexivity.
  rewrite (u64_small (hs_k h + 1)) by lia.
  rewrite (u64_small (2 ^ (hs_k h - 1) * 2)) by lia.
  rewrite (u64_small ((2 ^ hs_k h - 1) * 2)) by lia.
  rewrite (u64_small ((2 ^ hs_k h - 1) * 2 + 1)) by lia.
  split.
  - unfold hensel_inv. cbn [hs_k hs_c hs_mod_mask hs_a_prev].
    replace (hs_k h + 1 - 1) with (hs_k h) by lia.
    replace (2 ^ (hs_k h + 1)) with (2 * 2 ^ hs_k h)
      by (symmetry; apply Z.pow_succ_r; lia).
    repeat split; first [lia | assumption].
  - cbn [hs_k]. lia.
Qed.

(** C8. For every odd [uint64_t] [q] and every [r] with [1 <= r <= 31],
    [HenselLemma2adicRoot(r, q)] returns: [r] executions of the [for] body
    and two candidates [t = 0, 1] in each inner search are always enough.
    The value [x] returned is in [0, 2^r) and [q * x + 1] is divisible by
    [2^r], that is [q * x = -1 (mod 2^r)]. *)
Theorem hensel_root (outer inner : nat) (r q : Z) :
  (Z.to_nat r <= outer)%nat -> (2 <= inner)%nat ->
  0 <= q < 2^64 -> Z.odd q = true -> 1 <= r <= 31 ->
  exists x, HenselLemma2adicRoot outer inner r q = Ok x /\
            0 <= x < 2 ^ r /\ (q * x + 1) mod 2 ^ r = 0 /\
            (q * x) mod 2 ^ r = (- 1) mod 2 ^ r.
Proof.
  intros Houter Hinner Hq Hodd Hr.
  destruct (while_rule (hensel_inv r q)
              (fun h => Z.to_nat (r + 1 - hs_k h))
              (fun h => hs_k h <=? r) (hensel_body inner q))
    with (fuel := outer)
         (s := {| hs_a_prev := 1; hs_c := 2; hs_mod_mask := 3; hs_k := 2 |})
    as (h & Hrun & Hinv & Hexit).
  - intros h Hh Hc. apply hensel_step; assumption.
  - unfold hensel_inv. cbn [hs_k hs_c hs_mod_mask hs_a_prev].
    change (2 ^ (2 - 1)) with 2. change (2 ^ 2 - 1) with 3.
    repeat split; try lia.
    rewrite Z.mul_1_r. pose proof (Z.div_mod q 2 ltac:(lia)) as Hd.
    rewrite Zmod_odd, Hodd in Hd.
    apply Z.mod_divide; [lia|]. exists (q / 2 + 1). lia.
  - cbn [hs_k]. lia.
  - exists (hs_a_prev h). unfold HenselLemma2adicRoot. rewrite Hrun.
    split; [reflexivity|].
    destruct Hinv as (Hk & _ & _ & Ha & H0).
    apply Z.leb_gt in Hexit.
    assert (E : hs_k h - 1 = r) by lia. rewrite E in *.
    split; [assumption|]. split; [assumption|].
    assert (HP : 0 < 2 ^ r) by (apply Z.pow_pos_nonneg; lia).
    apply Z.mod_divide in H0; [|lia]. destruct H0 as [j Hj].
    replace (q * hs_a_prev h) with (- 1 + j * 2 ^ r) by lia.
    apply Z.mod_add. lia.
Qed.

Lemma hensel_root_witness :
  exists x, HenselLemma2adicRoot 12 2 12 2345 = Ok x /\
            0 <= x < 2 ^ 12 /\ (2345 * x + 1) mod 2 ^ 12 = 0 /\
            (2345 * x) mod 2 ^ 12 = (- 1) mod 2 ^ 12.
Proof.
  apply (hensel_root 12 2 12 2345); [simpl; lia | lia | lia | reflexivity | lia].
Defined.

(** * Further properties of the code *)

(** ** [bit_length], [mod_mult_inv] and [reciprocal_mod] on any arguments *)

(** X1. [bit_length] returns for every [uint32_t] [n], after at most 32
    iterations, the number [k <= 32] of bits of [n]: [n < 2^k], [k = 0] for
    [n = 0], and [2^(k-1) <= n] otherwise. *)
Theorem bit_length_spec (fuel : nat) (n : Z) :
  (32 <= fuel)%nat -> 0 <= n < 2^32 ->
  exists k, bit_length fuel n = Ok k /\ 0 <= k <= 32 /\ n < 2 ^ k /\
            (n = 0 -> k = 0) /\ (0 < n -> 2 ^ (k - 1) <= n).
Proof.
  intros Hfuel Hn. exists (bits n).
  split; [apply bit_length_correct; assumption|].
  pose proof (bits_nonneg n) as H0.
  split; [split; [assumption | apply bits_le; lia]|].
  destruct (Z.eq_dec n 0) as [->|Hnz].
  - repeat split; try reflexivity; lia.
  - pose proof (bits_spec n ltac:(lia)) as [Hlo Hhi].
    repeat split; try assumption; lia.
Qed.

Lemma bit_length_spec_witness :
  exists k, bit_length 32 4294967295 = Ok k /\ 0 <= k <= 32 /\
            4294967295 < 2 ^ k /\
            (4294967295 = 0 -> k = 0) /\ (0 < 4294967295 -> 2 ^ (k - 1) <= 4294967295).
Proof. apply (bit_length_spec 32 4294967295); lia. Defined.

(** In [0, n) an inverse of [r] modulo [n] is unique. *)
Lemma inverse_unique (n r v w : Z) :
  0 < n -> Z.gcd n r = 1 -> 0 <= v < n -> 0 <= w < n ->
  (r * v) mod n = 1 -> (r * w) mod n = 1 -> w = v.
Proof.
  intros Hn Hg Hv Hw Ev Ew.
  assert (Hd : (n | r * (w - v))).
  { apply Z.mod_divide; [lia|].
    replace (r * (w - v)) with (r * w - r * v) by ring.
    rewrite Zminus_mod, Ev, Ew. apply Z.mod_0_l. lia. }
  apply Z.gauss in Hd; [|assumption].
  destruct Hd as [c Hc].
  assert (c = 0) by nia. subst c. lia.
Qed.

(** X2. For any modulus [1 < n < 2^31] and any [uint32_t] [r] coprime to
    [n], not only a power of two, [mod_mult_inv(n, r)] and
    [reciprocal_mod(n, r)] return, within 62 iterations, the one [v] in
    [0, n) with [r * v = 1 (mod n)]. *)
Theorem mod_mult_inv_coprime (fuel : nat) (n r : Z) :
  (62 <= fuel)%nat -> 1 < n < 2^31 -> 0 <= r < 2^32 -> Z.gcd n r = 1 ->
  exists v, mod_mult_inv fuel n r = Ok v /\ reciprocal_mod fuel n r = Ok v /\
            0 <= v < n /\ (r * v) mod n = 1 /\
            (forall w, 0 <= w < n -> (r * w) mod n = 1 -> w = v).
Proof.
  intros Hfuel Hn Hr Hg.
  destruct (mod_mult_inv_correct n r ltac:(lia) Hg ltac:(lia) fuel Hfuel)
    as (v & s & Hm & _ & Hv & Hinv & _).
  exists v. split; [exact Hm|]. split; [exact Hm|].
  split; [assumption|]. split; [assumption|].
  intros w Hw Ew. apply (inverse_unique n r); try assumption; lia.
Qed.

Lemma mod_mult_inv_coprime_witness :
  exists v, mod_mult_inv 62 35 12 = Ok v /\ reciprocal_mod 62 35 12 = Ok v /\
            0 <= v < 35 /\ (12 * v) mod 35 = 1 /\
            (forall w, 0 <= w < 35 -> (12 * w) mod 35 = 1 -> w = v).
Proof.
  apply (mod_mult_inv_coprime 62 35 12); [lia | lia | lia | reflexivity].
Defined.

(** X3. For any modulus [0 < n < 2^31] and any [uint32_t] [r] that is not
    coprime to [n], [mod_mult_inv(n, r)] and [reciprocal_mod(n, r)] throw
    "Reciprocal does not exist.": the loop ends with [x = gcd(n, r)]. *)
Theorem mod_mult_inv_not_coprime (fuel : nat) (n r : Z) :
  (62 <= fuel)%nat -> 0 < n < 2^31 -> 0 <= r < 2^32 -> Z.gcd n r <> 1 ->
  mod_mult_inv fuel n r = Throw (runtime_error "Reciprocal does not exist.") /\
  reciprocal_mod fuel n r = Throw (runtime_error "Reciprocal does not exist.").
Proof.
  intros Hfuel Hn Hr Hg.
  destruct (egcd_loop n r Hn fuel Hfuel) as (s & Hm & _ & _ & Hx & _).
  assert (E : mod_mult_inv fuel n r
              = Throw (runtime_error "Reciprocal does not exist.")).
  { unfold mod_mult_inv, umod.
    destruct (Z.eqb_spec n 0) as [|_]; [lia|]. cbn [bind].
    rewrite Hm. cbn [bind]. rewrite Hx.
    destruct (Z.eqb_spec (Z.gcd n r) 1); [contradiction | reflexivity]. }
  split; exact E.
Qed.

Lemma mod_mult_inv_not_coprime_witness :
  mod_mult_inv 62 6 8 = Throw (runtime_error "Reciprocal does not exist.") /\
  reciprocal_mod 62 6 8 = Throw (runtime_error "Reciprocal does not exist.").
Proof.
  apply (mod_mult_inv_not_coprime 62 6 8); [lia | lia | lia | discriminate].
Defined.

(** ** [HenselLemma2adicRoot] on any arguments *)

Lemma u64_pow_big (e : Z) : 64 <= e -> u64 (2 ^ e) = 0.
Proof.
  intros He. unfold u64. replace e with (e - 64 + 64) by lia.
  rewrite Z.pow_add_r by lia. apply Z.mod_mul.
  apply Z.pow_nonzero; lia.
Qed.

Lemma pow2_le_64 (k : Z) : 0 <= k <= 64 -> 0 < 2^k <= 2^64.
Proof.
  intros Hk. split; [apply Z.pow_pos_nonneg; lia|].
  apply Z.pow_le_mono_r; lia.
Qed.

(** The inner search for a bit position [k] up to 64. *)
Lemma hensel_search_wide (inner : nat) (q a_prev k : Z) :
  (2 <= inner)%nat -> Z.odd q = true -> 2 <= k <= 64 ->
  0 <= a_prev < 2 ^ (k - 1) -> (q * a_prev + 1) mod 2 ^ (k - 1) = 0 ->
  exists s,
    hensel_search inner q a_prev (2 ^ (k - 1)) (2 ^ k - 1) = Ok s /\
    0 <= se_a s < 2 ^ k /\ (q * se_a s + 1) mod 2 ^ k = 0.
Proof.
  intros Hinner Hodd Hk Ha H0.
  destruct inner as [|[|i]]; try lia.
  pose proof (pow2_le_64 (k - 1) ltac:(lia)) as HP.
  pose proof (pow2_le_64 k ltac:(lia)) as HK.
  assert (H2P : 2 ^ k = 2 * 2 ^ (k - 1)).
  { replace k with (Z.succ (k - 1)) at 1 by lia. apply Z.pow_succ_r. lia. }
  unfold hensel_search, do_while, search_body.
  cbn [bind while se_f se_t se_a].
  rewrite Z.mul_0_r. change (u64 0) with 0. rewrite Z.add_0_r.
  change (u64 (0 + 1)) with 1.
  rewrite (u64_small a_prev) by lia.
  rewrite land_mask, f_low_bits by lia.
  destruct (Z.eqb_spec ((q * a_prev + 1) mod 2 ^ k) 0) as [E|E]; cbn [negb].
  - eexists. split; [reflexivity|]. cbn [se_a].
    repeat split; first [lia | assumption].
  - cbn [bind while se_f se_t se_a].
    rewrite Z.mul_1_r. change (u64 (1 + 1)) with 2.
    rewrite (u64_small (2 ^ (k - 1))) by lia.
    rewrite (u64_small (a_prev + 2 ^ (k - 1))) by lia.
    assert (E' : (q * (a_prev + 2 ^ (k - 1)) + 1) mod 2 ^ k = 0).
    { rewrite H2P in *. apply lift_one_bit; first [assumption | lia]. }
    destruct i; cbn [while se_f]; rewrite land_mask, f_low_bits by lia;
      rewrite E'; cbn [Z.eqb negb];
      (eexists; split; [reflexivity|]; cbn [se_a];
       repeat split; first [lia | assumption]).
Qed.

(** Past bit 64 the step [c] has wrapped to 0 and the first candidate, the
    previous root, is accepted. *)
Lemma hensel_search_past_64 (inner : nat) (q a_prev : Z) :
  (1 <= inner)%nat -> 0 <= a_prev < 2^64 -> (q * a_prev + 1) mod 2^64 = 0 ->
  exists s, hensel_search inner q a_prev 0 (2^64 - 1) = Ok s /\
            se_a s = a_prev.
Proof.
  intros Hinner Ha H0. destruct inner as [|i]; [lia|].
  unfold hensel_search, do_while, search_body.
  cbn [bind se_f se_t se_a]. rewrite Z.mul_0_l.
  change (u64 0) with 0. rewrite Z.add_0_r. rewrite (u64_small a_prev) by lia.
  assert (C : Z.land (u64 (u64 (q * a_prev) + 1)) (2^64 - 1) = 0).
  { rewrite land_mask, f_low_bits by lia. assumption. }
  destruct i; cbn [while se_f]; rewrite C; cbn [Z.eqb negb];
    (eexists; split; reflexivity).
Qed.

Lemma hensel_step_wide (inner : nat) (r q : Z) (h : hensel_state) :
  (2 <= inner)%nat -> Z.odd q = true -> 1 <= r < 2^32 ->
  hensel_inv_wide r q h -> (hs_k h <=? r) = true ->
  exists h', hensel_body inner q h = Ok h' /\ hensel_inv_wide r q h' /\
             (Z.to_nat (r + 1 - hs_k h') < Z.to_nat (r + 1 - hs_k h))%nat.
Proof.
  intros Hinner Hodd Hr (Hk & Hc & Hmask & Ha & H0) Hcond.
  apply Z.leb_le in Hcond.
  assert (H3264 : 2^32 + 1 < 2^64) by reflexivity.
  unfold hensel_body. rewrite Hc, Hmask.
  destruct (Z_le_gt_dec (hs_k h) 64) as [Hle|Hgt].
  - rewrite Z.min_l in * by lia.
    pose proof (pow2_le_64 (hs_k h - 1) ltac:(lia)) as HP.
    assert (HPlt : 2 ^ (hs_k h - 1) < 2^64)
      by (apply Z.pow_lt_mono_r; lia).
    assert (H2P : 2 ^ hs_k h = 2 * 2 ^ (hs_k h - 1)).
    { replace (hs_k h) with (Z.succ (hs_k h - 1)) at 1 by lia.
      apply Z.pow_succ_r. lia. }
    rewrite (u64_small (2 ^ (hs_k h - 1))) by lia.
    destruct (hensel_search_wide inner q (hs_a_prev h) (hs_k h) Hinner Hodd
                ltac:(lia) Ha H0) as (s & Hs & Hsa & Hs0).
    rewrite Hs. cbn [bind]. eexists. split; [reflexivity|].
    rewrite (u64_small (hs_k h + 1)) by lia.
    split; [|cbn [hs_k]; lia].
    unfold hensel_inv_wide. cbn [hs_k hs_c hs_mod_mask hs_a_prev].
    replace (hs_k h + 1 - 1) with (hs_k h) by lia.
    rewrite (Z.min_l (hs_k h) 64) by lia.
    split; [lia|]. split; [f_equal; lia|].
    split; [|split; assumption].
    destruct (Z.eq_dec (hs_k h) 64) as [E64|N64].
    + rewrite E64. reflexivity.
    + rewrite Z.min_l by lia.
      assert (HKlt : 2 ^ hs_k h < 2^64) by (apply Z.pow_lt_mono_r; lia).
      assert (HK1 : 2 ^ (hs_k h + 1) = 2 * 2 ^ hs_k h)
        by (apply Z.pow_succ_r; lia).
      change (2^64) with (2 * 2^63) in *.
      assert (HK63 : 2 ^ hs_k h <= 2^63) by (apply Z.pow_le_mono_r; lia).
      rewrite (u64_small ((2 ^ hs_k h - 1) * 2)) by (change (2^64) with (2 * 2^63); lia).
      rewrite u64_small by (change (2^64) with (2 * 2^63); lia). lia.
  - rewrite Z.min_r in * by lia.
    rewrite (u64_pow_big (hs_k h - 1)) by lia.
    destruct (hensel_search_past_64 inner q (hs_a_prev h) ltac:(lia) Ha H0)
      as (s & Hs & Hsa).
    rewrite Hs. cbn [bind]. eexists. split; [reflexivity|].
    rewrite (u64_small (hs_k h + 1)) by lia.
    split; [|cbn [hs_k]; lia].
    unfold hensel_inv_wide. cbn [hs_k hs_c hs_mod_mask hs_a_prev].
    replace (hs_k h + 1 - 1) with (hs_k h) by lia.
    rewrite (Z.min_r (hs_k h) 64), (Z.min_r (hs_k h + 1) 64) by lia.
    rewrite Hsa, (u64_pow_big (hs_k h)) by lia.
    split; [lia|]. split; [reflexivity|]. split; [reflexivity|].
    split; assumption.
Qed.

(** The whole function, for any [r >= 1]. *)
Lemma hensel_run (outer inner : nat) (r q : Z) :
  (Z.to_nat r <= outer)%nat -> (2 <= inner)%nat ->
  Z.odd q = true -> 1 <= r < 2^32 ->
  exists x, HenselLemma2adicRoot outer inner r q = Ok x /\
            0 <= x < 2 ^ Z.min r 64 /\ (q * x + 1) mod 2 ^ Z.min r 64 = 0.
Proof.
  intros Houter Hinner Hodd Hr.
  destruct (while_rule (hensel_inv_wide r q)
              (fun h => Z.to_nat (r + 1 - hs_k h))
              (fun h => hs_k h <=? r) (hensel_body inner q))
    with (fuel := outer)
         (s := {| hs_a_prev := 1; hs_c := 2; hs_mod_mask := 3; hs_k := 2 |})
    as (h & Hrun & Hinv & Hexit).
  - intros h Hh Hc. apply hensel_step_wide; assumption.
  - unfold hensel_inv_wide. cbn [hs_k hs_c hs_mod_mask hs_a_prev].
    change (2 ^ Z.min (2 - 1) 64) with 2.
    split; [lia|]. split; [reflexivity|]. split; [reflexivity|].
    split; [lia|].
    rewrite Z.mul_1_r. pose proof (Z.div_mod q 2 ltac:(lia)) as Hd.
    rewrite Zmod_odd, Hodd in Hd.
    apply Z.mod_divide; [lia|]. exists (q / 2 + 1). lia.
  - cbn [hs_k]. lia.
  - exists (hs_a_prev h). unfold HenselLemma2adicRoot. rewrite Hrun.
    split; [reflexivity|].
    destruct Hinv as (Hk & _ & _ & Ha & H0).
    apply Z.leb_gt in Hexit.
    assert (E : hs_k h - 1 = r) by lia. rewrite E in *.
    split; assumption.
Qed.

(** X4. For every odd [uint64_t] [q] and every [uint32_t] [r >= 1], not only
    [r <= 31], [HenselLemma2adicRoot(r, q)] returns ([r] executions of the
    [for] body, two candidates per inner search): the value [x] solves
    [q * x + 1 = 0] modulo [2^min(r, 64)] and lies in [0, 2^min(r, 64)).
    Beyond [r = 64] the 64-bit variables have wrapped and the root modulo
    [2^64] is returned unchanged. *)
Theorem hensel_root_any_width (outer inner : nat) (r q : Z) :
  (Z.to_nat r <= outer)%nat -> (2 <= inner)%nat ->
  0 <= q < 2^64 -> Z.odd q = true -> 1 <= r < 2^32 ->
  exists x, HenselLemma2adicRoot outer inner r q = Ok x /\
            0 <= x < 2 ^ Z.min r 64 /\ (q * x + 1) mod 2 ^ Z.min r 64 = 0.
Proof.
  intros Houter Hinner _ Hodd Hr. apply hensel_run; assumption.
Qed.

Lemma hensel_root_any_width_witness :
  exists x, HenselLemma2adicRoot 70 2 70 18446744073709551615 = Ok x /\
            0 <= x < 2 ^ Z.min 70 64 /\
            (18446744073709551615 * x + 1) mod 2 ^ Z.min 70 64 = 0.
Proof.
  apply (hensel_root_any_width 70 2 70 18446744073709551615);
    [simpl; lia | lia | lia | reflexivity | lia].
Defined.

(** X5. For [r = 0] and [r = 1] the [for] loop of [HenselLemma2adicRoot] is
    not entered and 1 is returned, whatever [q] is and whatever the budget;
    for [r = 0] this lies outside the interval [0, 2^r - 1] that the
    function's comment gives for its result. *)
Theorem hensel_root_small_r (outer inner : nat) (r q : Z) :
  0 <= r <= 1 ->
  HenselLemma2adicRoot outer inner r q = Ok 1 /\ (r = 0 -> 2 ^ r - 1 < 1).
Proof.
  intros Hr. split.
  - unfold HenselLemma2adicRoot.
    assert (C : (2 <=? r) = false) by (apply Z.leb_gt; lia).
    destruct outer; cbn [while hs_k]; rewrite C; reflexivity.
  - intros ->. reflexivity.
Qed.

Lemma hensel_root_small_r_witness :
  HenselLemma2adicRoot 0 0 0 6 = Ok 1 /\ (0 = 0 -> 2 ^ 0 - 1 < 1).
Proof. apply (hensel_root_small_r 0 0 0 6). lia. Defined.

Lemma even_f_is_odd (q a : Z) :
  Z.even q = true -> Z.odd (u64 (u64 (q * a) + 1)) = true.
Proof.
  intros He. rewrite Zodd_mod. apply Z.eqb_eq.
  change 2 with (2^1) at 1. rewrite f_low_bits by lia. change (2^1) with 2.
  pose proof (Z.div_mod q 2 ltac:(lia)) as Hd.
  rewrite Zmod_even, He in Hd.
  replace (q * a + 1) with (1 + (q / 2 * a) * 2) by nia.
  rewrite Z.mod_add by lia. reflexivity.
Qed.

(** With an even [q] every candidate gives an odd [f], and the search for
    the second bit goes on as long as the budget lasts. *)
Lemma search_never_ends (q a_prev c : Z) (fuel : nat) :
  Z.even q = true ->
  forall s, Z.odd (se_f s) = true ->
    while fuel (fun s => negb (Z.land (se_f s) 3 =? 0))
      (search_body q a_prev c) s = OutOfFuel.
Proof.
  intros He. induction fuel as [|fuel IH]; intros s Hs.
  all: assert (C : negb (Z.land (se_f s) 3 =? 0) = true)
    by (change 3 with (2^2 - 1); rewrite land_mask by lia;
        destruct (Z.eqb_spec (se_f s mod 2^2) 0) as [E|_]; [|reflexivity];
        exfalso; rewrite Zodd_mod in Hs; apply Z.eqb_eq in Hs;
        rewrite <- (Z.mod_mod_divide (se_f s) (2^2) 2) in Hs
          by (exists 2; reflexivity);
        rewrite E in Hs; discriminate).
  - cbn [while]. rewrite C. reflexivity.
  - cbn [while]. rewrite C. unfold search_body at 1. cbn [bind].
    apply IH. cbn [se_f]. apply even_f_is_odd. assumption.
Qed.

(** X6. For an even [q] and [r >= 2], [HenselLemma2adicRoot(r, q)] does not
    return: [q * a + 1] is odd for every candidate [a], so the first inner
    [do ... while] never ends; whatever the budgets, the run exhausts
    them. *)
Theorem hensel_even_q_never_returns (outer inner : nat) (r q : Z) :
  Z.even q = true -> 2 <= r ->
  HenselLemma2adicRoot outer inner r q = OutOfFuel.
Proof.
  intros He Hr. unfold HenselLemma2adicRoot.
  assert (C : (2 <=? r) = true) by (apply Z.leb_le; lia).
  destruct outer as [|outer]; cbn [while hs_k]; rewrite C; [reflexivity|].
  unfold hensel_body at 1. cbn [hs_a_prev hs_c hs_mod_mask].
  unfold hensel_search, do_while.
  destruct inner as [|inner]; [reflexivity|].
  unfold search_body at 1. cbn [bind].
  rewrite search_never_ends; [reflexivity | assumption |].
  cbn [se_f se_t]. apply even_f_is_odd. assumption.
Qed.

Lemma hensel_even_q_never_returns_witness :
  HenselLemma2adicRoot 100 100 12 2346 = OutOfFuel.
Proof.
  apply (hensel_even_q_never_returns 100 100 12 2346); [reflexivity | lia].
Defined.

Lemma odd_coprime_pow2 (q e : Z) :
  Z.odd q = true -> 0 <= e -> Z.gcd (2 ^ e) q = 1.
Proof.
  intros Hodd He. rewrite Z.gcd_comm.
  change (Z.coprime q (2 ^ e)). apply Z.coprime_pow_r; [assumption|].
  apply Z.coprime_Bezout. exists 1, (- (q / 2)).
  pose proof (Z.div_mod q 2 ltac:(lia)) as Hd.
  rewrite Zmod_odd, Hodd in Hd. lia.
Qed.

(** The root of [q * X + 1] modulo [2^e] is unique in [0, 2^e). *)
Lemma hensel_unique (q e x y : Z) :
  Z.odd q = true -> 0 <= e -> 0 <= x < 2 ^ e -> 0 <= y < 2 ^ e ->
  (q * x + 1) mod 2 ^ e = 0 -> (q * y + 1) mod 2 ^ e = 0 -> x = y.
Proof.
  intros Hodd He Hx Hy Ex Ey.
  assert (HP : 0 < 2 ^ e) by (apply Z.pow_pos_nonneg; lia).
  apply Z.mod_divide in Ex; [|lia]. apply Z.mod_divide in Ey; [|lia].
  assert (Hd : (2 ^ e | q * (x - y))).
  { replace (q * (x - y)) with ((q * x + 1) - (q * y + 1)) by ring.
    apply Z.divide_sub_r; assumption. }
  apply Z.gauss in Hd; [|apply odd_coprime_pow2; assumption].
  destruct Hd as [c Hc]. assert (c = 0) by nia. subst c. lia.
Qed.

(** X7. The two ways to the negative inverse of the modulus agree: for the
    contexts the constructors return for [n],
    [HenselLemma2adicRoot(r_bit_len, n)] returns the field [n_inv_mod] of
    [main2.cpp] ([k] in [part_000]), which the constructor computes from
    the Euclidean inverse as [(R * r_inv_mod - 1) / n]. *)
Theorem hensel_root_is_n_inv_mod (fuel outer inner : nat) (n : Z)
    (m2 : Main2.Montgomery) (m1 : Part0.Montgomery) :
  (64 <= fuel)%nat -> (31 <= outer)%nat -> (2 <= inner)%nat ->
  Main2.construct fuel n = Ok m2 -> Part0.construct fuel n = Ok m1 ->
  HenselLemma2adicRoot outer inner (Main2.r_bit_len m2) n
    = Ok (Main2.n_inv_mod m2) /\
  HenselLemma2adicRoot outer inner (Part0.r_bit_len m1) n = Ok (Part0.k m1).
Proof.
  intros Hfuel Houter Hinner H2 H1.
  destruct (Main2_construct_legal _ _ _ H2) as [Hodd _].
  closed_contexts Hfuel H2 H1.
  cbn [Main2.r_bit_len Main2.n_inv_mod Part0.r_bit_len Part0.k].
  destruct Hp as (_ & Hri & _ & Hni & Hid).
  assert (H32 : 2^5 < 2^32) by reflexivity.
  destruct (hensel_run outer inner (bits n) n ltac:(lia) Hinner Hodd
              ltac:(lia)) as (x & Hrun & Hx & Hx0).
  rewrite Z.min_l in * by lia.
  assert (x = ni) as <-.
  { apply (hensel_unique n (bits n)); try assumption; try lia.
    apply Z.mod_divide; [lia|]. exists ri. lia. }
  split; assumption.
Qed.

Lemma hensel_root_is_n_inv_mod_witness :
  HenselLemma2adicRoot 31 2
    (Main2.r_bit_len
       (Main2.mk 1280541179 31 562449432 2147483647 943234765 253931806))
    1280541179
  = Ok (Main2.n_inv_mod
          (Main2.mk 1280541179 31 562449432 2147483647 943234765 253931806)) /\
  HenselLemma2adicRoot 31 2
    (Part0.r_bit_len (Part0.mk 1280541179 31 562449432 2147483647 943234765))
    1280541179
  = Ok (Part0.k (Part0.mk 1280541179 31 562449432 2147483647 943234765)).
Proof.
  apply (hensel_root_is_n_inv_mod 64 31 2 1280541179);
    [lia | lia | lia | reflexivity | reflexivity].
Defined.

(** ** The constructor on any argument *)

(** X8. The constructors end in one of four ways only: for every [n] they
    return a context exactly when [n] is odd and in [3, 2^31-1], and
    otherwise throw [std::invalid_argument]. The assertion
    [r_bit_len <= 31] never fails, no signed overflow or division by zero
    occurs, and "Reciprocal does not exist." never propagates out of them. *)
Theorem construct_outcomes (fuel : nat) (n : Z) :
  (64 <= fuel)%nat ->
  (Z.odd n = true /\ 3 <= n <= 2^31 - 1 /\
   exists m2 m1, Main2.construct fuel n = Ok m2 /\
                 Part0.construct fuel n = Ok m1) \/
  (~ (Z.odd n = true /\ 3 <= n <= 2^31 - 1) /\
   exists what, Main2.construct fuel n = Throw (invalid_argument what) /\
                Part0.construct fuel n = Throw (invalid_argument what)).
Proof.
  intros Hfuel.
  destruct (Z.ltb_spec n 3) as [Hlt|Hge].
  { right. split; [lia|]. eexists. unfold Main2.construct, Part0.construct.
    replace (n <? 3) with true by (symmetry; apply Z.ltb_lt; lia).
    split; reflexivity. }
  destruct (Z.odd n) eqn:Hodd.
  - destruct (Z_le_gt_dec n (2^31 - 1)) as [Hle|Hgt].
    + left. split; [reflexivity|]. split; [lia|].
      destruct (construct_ok fuel n Hodd ltac:(lia) Hfuel)
        as (ri & ni & E2 & E1 & _).
      eauto.
    + right. split; [lia|]. eexists.
      unfold Main2.construct, Part0.construct, INT32_MAX.
      replace (n <? 3) with false by (symmetry; apply Z.ltb_ge; lia).
      rewrite Zmod_odd, Hodd. change (1 =? 0) with false. cbv iota.
      replace (n >? 2^31 - 1) with true
        by (symmetry; rewrite Z.gtb_ltb; apply Z.ltb_lt; lia).
      split; reflexivity.
  - right. split; [intros [H _]; discriminate|]. eexists.
    unfold Main2.construct, Part0.construct.
    replace (n <? 3) with false by (symmetry; apply Z.ltb_ge; lia).
    rewrite Zmod_odd, Hodd. change (0 =? 0) with true. cbv iota.
    split; reflexivity.
Qed.

Lemma construct_outcomes_witness :
  (Z.odd 4294967295 = true /\ 3 <= 4294967295 <= 2^31 - 1 /\
   exists m2 m1, Main2.construct 64 4294967295 = Ok m2 /\
                 Part0.construct 64 4294967295 = Ok m1) \/
  (~ (Z.odd 4294967295 = true /\ 3 <= 4294967295 <= 2^31 - 1) /\
   exists what,
     Main2.construct 64 4294967295 = Throw (invalid_argument what) /\
     Part0.construct 64 4294967295 = Throw (invalid_argument what)).
Proof. apply (construct_outcomes 64 4294967295). lia. Defined.

(** ** Arithmetic in Montgomery form *)

Section MontgomeryAlgebra.

Variables N R ri ni : Z.
Hypothesis HN : 0 < N.
Hypothesis Hid : R * ri - 1 = ni * N.

(** Out of Montgomery form and back in. *)
Lemma back_in_algebra (x : Z) :
  0 <= x < N -> (((x * ri) mod N) * R) mod N = x.
Proof.
  intros Hx. rewrite Z.mul_mod_idemp_l by lia.
  replace (x * ri * R) with (x * (R * ri)) by ring.
  rewrite (inv_cancel N R ri ni) by assumption. apply Z.mod_small. assumption.
Qed.

(** The Montgomery form of 1 is neutral for the Montgomery product. *)
Lemma one_neutral_algebra (a : Z) :
  0 <= a < N -> (a * ((1 * R) mod N) * ri) mod N = a.
Proof.
  intros Ha.
  replace (a * ((1 * R) mod N) * ri) with ((1 * R) mod N * (a * ri)) by ring.
  rewrite Z.mul_mod_idemp_l by lia.
  replace (1 * R * (a * ri)) with (a * (R * ri)) by ring.
  rewrite (inv_cancel N R ri ni) by assumption. apply Z.mod_small. assumption.
Qed.

Lemma assoc_algebra (a b c : Z) :
  (((a * b * ri) mod N) * c * ri) mod N
  = (a * ((b * c * ri) mod N) * ri) mod N.
Proof.
  rewrite <- (Z.mul_assoc _ c ri). rewrite Z.mul_mod_idemp_l by lia.
  replace (a * ((b * c * ri) mod N) * ri)
    with ((b * c * ri) mod N * (a * ri)) by ring.
  rewrite Z.mul_mod_idemp_l by lia. f_equal. ring.
Qed.

(** The Montgomery product of two forms is the form of the product. *)
Lemma form_of_product_algebra (a b : Z) :
  (((a * R) mod N) * ((b * R) mod N) * ri) mod N
  = (((a * b) mod N) * R) mod N.
Proof.
  rewrite <- Z.mul_mod_idemp_l by lia. rewrite <- Z.mul_mod by lia.
  rewrite !Z.mul_mod_idemp_l by lia.
  replace (a * R * (b * R) * ri) with (a * b * R * (R * ri)) by ring.
  apply (inv_cancel N R ri ni). assumption.
Qed.

End MontgomeryAlgebra.

(** The value of [product], shared by the properties of the test loop. *)
Lemma products_value (fuel : nat) (n a b : Z)
    (m2 : Main2.Montgomery) (m1 : Part0.Montgomery) :
  (64 <= fuel)%nat ->
  Main2.construct fuel n = Ok m2 -> Part0.construct fuel n = Ok m1 ->
  0 <= a < n -> 0 <= b < n ->
  fst (Main2.product a b m2) = (a * b) mod n /\
  fst (Part0.product a b m1) = (a * b) mod n.
Proof.
  intros Hfuel H2 H1 Ha Hb. closed_contexts Hfuel H2 H1.
  assert (H32 : 2^31 < 2^32) by reflexivity.
  pose proof (Z.mod_pos_bound (a * 2 ^ bits n) n ltac:(lia)) as Ha'.
  pose proof (Z.mod_pos_bound (b * 2 ^ bits n) n ltac:(lia)) as Hb'.
  pose proof (Z.mod_pos_bound
                ((a * 2 ^ bits n) mod n * ((b * 2 ^ bits n) mod n) * ri) n
                ltac:(lia)) as Hc'.
  split.
  - rewrite Main2_product_calls.
    rewrite !(Main2_convert_in_value n ri ni Hp Hk HR HN) by lia.
    rewrite (Main2_multiply_value n ri ni Hp Hk HR HN) by lia.
    rewrite (Main2_convert_out_value n ri ni Hp Hk HR HN) by lia.
    apply (product_algebra n ri ni Hp HN).
  - rewrite Part0_product_calls.
    rewrite !(Part0_convert_in_value n ri ni Hk HR HN) by lia.
    rewrite (Part0_multiply_value n ri ni Hp Hk HR HN) by nia.
    rewrite (Part0_convert_out_value n ri ni Hp Hk HR HN) by lia.
    apply (product_algebra n ri ni Hp HN).
Qed.

(** X9. The conversions are inverse to each other in the other order too:
    for the contexts of both programs and every [x] in [0, n),
    [convert_in(convert_out(x)) = x]. *)
Theorem back_into_form (fuel : nat) (n x : Z)
    (m2 : Main2.Montgomery) (m1 : Part0.Montgomery) :
  (64 <= fuel)%nat ->
  Main2.construct fuel n = Ok m2 -> Part0.construct fuel n = Ok m1 ->
  0 <= x < n ->
  fst (Main2.convert_in (fst (Main2.convert_out x m2)) m2) = x /\
  fst (Part0.convert_in (fst (Part0.convert_out x m1)) m1) = x.
Proof.
  intros Hfuel H2 H1 Hx. closed_contexts Hfuel H2 H1.
  assert (H32 : 2^31 < 2^32) by reflexivity.
  pose proof (Z.mod_pos_bound (x * ri) n ltac:(lia)) as Hx'.
  pose proof (params_id n ri ni Hp) as Hid.
  split.
  - rewrite (Main2_convert_out_value n ri ni Hp Hk HR HN) by lia.
    rewrite (Main2_convert_in_value n ri ni Hp Hk HR HN) by lia.
    apply (back_in_algebra n _ ri ni); [lia | assumption | assumption].
  - rewrite (Part0_convert_out_value n ri ni Hp Hk HR HN) by lia.
    rewrite (Part0_convert_in_value n ri ni Hk HR HN) by lia.
    apply (back_in_algebra n _ ri ni); [lia | assumption | assumption].
Qed.

Lemma back_into_form_witness :
  fst (Main2.convert_in
         (fst (Main2.convert_out 5 (Main2.mk 7 3 1 7 1 1)))
         (Main2.mk 7 3 1 7 1 1)) = 5 /\
  fst (Part0.convert_in
         (fst (Part0.convert_out 5 (Part0.mk 7 3 1 7 1)))
         (Part0.mk 7 3 1 7 1)) = 5.
Proof.
  apply (back_into_form 64 7); [lia | reflexivity | reflexivity | lia].
Defined.

(** X10. On residues [multiply] is a commutative operation with a neutral
    element: for the contexts of both programs and [a], [b] in [0, n) the
    result is again in [0, n), [multiply(a, b) = multiply(b, a)], and
    [multiply(a, convert_in(1)) = a]. *)
Theorem multiply_commutative_with_one (fuel : nat) (n a b : Z)
    (m2 : Main2.Montgomery) (m1 : Part0.Montgomery) :
  (64 <= fuel)%nat ->
  Main2.construct fuel n = Ok m2 -> Part0.construct fuel n = Ok m1 ->
  0 <= a < n -> 0 <= b < n ->
  (0 <= fst (Main2.multiply a b m2) < n /\
   fst (Main2.multiply a b m2) = fst (Main2.multiply b a m2) /\
   fst (Main2.multiply a (fst (Main2.convert_in 1 m2)) m2) = a) /\
  (0 <= fst (Part0.multiply a b m1) < n /\
   fst (Part0.multiply a b m1) = fst (Part0.multiply b a m1) /\
   fst (Part0.multiply a (fst (Part0.convert_in 1 m1)) m1) = a).
Proof.
  intros Hfuel H2 H1 Ha Hb. closed_contexts Hfuel H2 H1.
  assert (H32 : 2^31 < 2^32) by reflexivity.
  pose proof (params_id n ri ni Hp) as Hid.
  pose proof (Z.mod_pos_bound (1 * 2 ^ bits n) n ltac:(lia)) as H1'.
  split.
  - rewrite (Main2_convert_in_value n ri ni Hp Hk HR HN) by lia.
    rewrite !(Main2_multiply_value n ri ni Hp Hk HR HN) by lia.
    split; [apply Z.mod_pos_bound; lia|].
    split; [f_equal; ring|].
    apply (one_neutral_algebra n _ ri ni); [lia | assumption | assumption].
  - rewrite (Part0_convert_in_value n ri ni Hk HR HN) by lia.
    rewrite !(Part0_multiply_value n ri ni Hp Hk HR HN) by nia.
    split; [apply Z.mod_pos_bound; lia|].
    split; [f_equal; ring|].
    apply (one_neutral_algebra n _ ri ni); [lia | assumption | assumption].
Qed.

Lemma multiply_commutative_with_one_witness :
  (0 <= fst (Main2.multiply 5 6 (Main2.mk 7 3 1 7 1 1)) < 7 /\
   fst (Main2.multiply 5 6 (Main2.mk 7 3 1 7 1 1))
     = fst (Main2.multiply 6 5 (Main2.mk 7 3 1 7 1 1)) /\
   fst (Main2.multiply 5
          (fst (Main2.convert_in 1 (Main2.mk 7 3 1 7 1 1)))
          (Main2.mk 7 3 1 7 1 1)) = 5) /\
  (0 <= fst (Part0.multiply 5 6 (Part0.mk 7 3 1 7 1)) < 7 /\
   fst (Part0.multiply 5 6 (Part0.mk 7 3 1 7 1))
     = fst (Part0.multiply 6 5 (Part0.mk 7 3 1 7 1)) /\
   fst (Part0.multiply 5
          (fst (Part0.convert_in 1 (Part0.mk 7 3 1 7 1)))
          (Part0.mk 7 3 1 7 1)) = 5).
Proof.
  apply (multiply_commutative_with_one 64 7);
    [lia | reflexivity | reflexivity | lia | lia].
Defined.

(** X11. [multiply] is associative on residues, so a chain of Montgomery
    products may be grouped in any way: for the contexts of both programs
    and [a], [b], [c] in [0, n),
    [multiply(multiply(a, b), c) = multiply(a, multiply(b, c))]. *)
Theorem multiply_associative (fuel : nat) (n a b c : Z)
    (m2 : Main2.Montgomery) (m1 : Part0.Montgomery) :
  (64 <= fuel)%nat ->
  Main2.construct fuel n = Ok m2 -> Part0.construct fuel n = Ok m1 ->
  0 <= a < n -> 0 <= b < n -> 0 <= c < n ->
  fst (Main2.multiply (fst (Main2.multiply a b m2)) c m2)
    = fst (Main2.multiply a (fst (Main2.multiply b c m2)) m2) /\
  fst (Part0.multiply (fst (Part0.multiply a b m1)) c m1)
    = fst (Part0.multiply a (fst (Part0.multiply b c m1)) m1).
Proof.
  intros Hfuel H2 H1 Ha Hb Hc. closed_contexts Hfuel H2 H1.
  assert (H32 : 2^31 < 2^32) by reflexivity.
  pose proof (Z.mod_pos_bound (a * b * ri) n ltac:(lia)) as Hab.
  pose proof (Z.mod_pos_bound (b * c * ri) n ltac:(lia)) as Hbc.
  split.
  - rewrite (Main2_multiply_value n ri ni Hp Hk HR HN a b) by lia.
    rewrite (Main2_multiply_value n ri ni Hp Hk HR HN b c) by lia.
    rewrite !(Main2_multiply_value n ri ni Hp Hk HR HN) by lia.
    apply assoc_algebra. lia.
  - rewrite (Part0_multiply_value n ri ni Hp Hk HR HN a b) by nia.
    rewrite (Part0_multiply_value n ri ni Hp Hk HR HN b c) by nia.
    rewrite !(Part0_multiply_value n ri ni Hp Hk HR HN) by nia.
    apply assoc_algebra. lia.
Qed.

Lemma multiply_associative_witness :
  fst (Main2.multiply (fst (Main2.multiply 3 5 (Main2.mk 7 3 1 7 1 1))) 6
         (Main2.mk 7 3 1 7 1 1))
    = fst (Main2.multiply 3 (fst (Main2.multiply 5 6 (Main2.mk 7 3 1 7 1 1)))
             (Main2.mk 7 3 1 7 1 1)) /\
  fst (Part0.multiply (fst (Part0.multiply 3 5 (Part0.mk 7 3 1 7 1))) 6
         (Part0.mk 7 3 1 7 1))
    = fst (Part0.multiply 3 (fst (Part0.multiply 5 6 (Part0.mk 7 3 1 7 1)))
             (Part0.mk 7 3 1 7 1)).
Proof.
  apply (multiply_associative 64 7);
    [lia | reflexivity | reflexivity | lia | lia | lia].
Defined.

(** X12. [multiply] computes in Montgomery form what multiplication modulo
    [n] computes on plain residues: for the contexts of both programs and
    all [uint32_t] [a], [b],
    [multiply(convert_in(a), convert_in(b)) = convert_in((a * b) mod n)]. *)
Theorem multiply_of_forms (fuel : nat) (n a b : Z)
    (m2 : Main2.Montgomery) (m1 : Part0.Montgomery) :
  (64 <= fuel)%nat ->
  Main2.construct fuel n = Ok m2 -> Part0.construct fuel n = Ok m1 ->
  0 <= a < 2^32 -> 0 <= b < 2^32 ->
  fst (Main2.multiply (fst (Main2.convert_in a m2))
         (fst (Main2.convert_in b m2)) m2)
    = fst (Main2.convert_in ((a * b) mod n) m2) /\
  fst (Part0.multiply (fst (Part0.convert_in a m1))
         (fst (Part0.convert_in b m1)) m1)
    = fst (Part0.convert_in ((a * b) mod n) m1).
Proof.
  intros Hfuel H2 H1 Ha Hb. closed_contexts Hfuel H2 H1.
  assert (H32 : 2^31 < 2^32) by reflexivity.
  pose proof (params_id n ri ni Hp) as Hid.
  pose proof (Z.mod_pos_bound (a * 2 ^ bits n) n ltac:(lia)) as Ha'.
  pose proof (Z.mod_pos_bound (b * 2 ^ bits n) n ltac:(lia)) as Hb'.
  pose proof (Z.mod_pos_bound (a * b) n ltac:(lia)) as Hab.
  split.
  - rewrite !(Main2_convert_in_value n ri ni Hp Hk HR HN) by lia.
    rewrite (Main2_multiply_value n ri ni Hp Hk HR HN) by lia.
    apply (form_of_product_algebra n _ ri ni); [lia | assumption].
  - rewrite !(Part0_convert_in_value n ri ni Hk HR HN) by lia.
    rewrite (Part0_multiply_value n ri ni Hp Hk HR HN) by nia.
    apply (form_of_product_algebra n _ ri ni); [lia | assumption].
Qed.

Lemma multiply_of_forms_witness :
  fst (Main2.multiply
         (fst (Main2.convert_in 4000000000 (Main2.mk 7 3 1 7 1 1)))
         (fst (Main2.convert_in 12 (Main2.mk 7 3 1 7 1 1)))
         (Main2.mk 7 3 1 7 1 1))
    = fst (Main2.convert_in ((4000000000 * 12) mod 7) (Main2.mk 7 3 1 7 1 1)) /\
  fst (Part0.multiply
         (fst (Part0.convert_in 4000000000 (Part0.mk 7 3 1 7 1)))
         (fst (Part0.convert_in 12 (Part0.mk 7 3 1 7 1)))
         (Part0.mk 7 3 1 7 1))
    = fst (Part0.convert_in ((4000000000 * 12) mod 7) (Part0.mk 7 3 1 7 1)).
Proof.
  apply (multiply_of_forms 64 7); [lia | reflexivity | reflexivity | lia | lia].
Defined.

(** ** [convert_out] outside the residues *)

(** X13. [convert_out] of [part_000] is total on [uint32_t]: for every [x]
    below [2^32], also [x >= n], it returns [x * r_reciprocal mod n], the
    residue [u] in [0, n) with [u * R = x (mod n)]. *)
Theorem Part0_convert_out_total (fuel : nat) (n x : Z) (m1 : Part0.Montgomery) :
  (64 <= fuel)%nat -> Part0.construct fuel n = Ok m1 -> 0 <= x < 2^32 ->
  fst (Part0.convert_out x m1) = (x * Part0.r_reciprocal m1) mod n /\
  0 <= fst (Part0.convert_out x m1) < n /\
  (fst (Part0.convert_out x m1) * 2 ^ Part0.r_bit_len m1) mod n = x mod n.
Proof.
  intros Hfuel H1 Hx.
  destruct (Part0_construct_legal _ _ _ H1) as [Hodd Hrange].
  destruct (construct_ok fuel n Hodd Hrange Hfuel) as (ri & ni & _ & E1 & Hp).
  rewrite E1 in H1. injection H1 as <-.
  pose proof (bits_range n Hrange) as Hk.
  pose proof (radix_range n Hrange) as HR'.
  pose proof (pow2_le_31 (bits n) ltac:(lia)) as HR31.
  assert (HR : n < 2 ^ bits n <= 2^31) by lia.
  assert (HN : 3 <= n) by lia.
  cbn [Part0.r_reciprocal Part0.r_bit_len].
  rewrite (Part0_convert_out_value n ri ni Hp Hk HR HN) by assumption.
  split; [reflexivity|]. split; [apply Z.mod_pos_bound; lia|].
  rewrite Z.mul_mod_idemp_l by lia.
  replace (x * ri * 2 ^ bits n) with (x * (2 ^ bits n * ri)) by ring.
  apply (inv_cancel n _ ri ni). apply (params_id n ri ni Hp).
Qed.

Lemma Part0_convert_out_total_witness :
  fst (Part0.convert_out 4294967295 (Part0.mk 7 3 1 7 1))
    = (4294967295 * Part0.r_reciprocal (Part0.mk 7 3 1 7 1)) mod 7 /\
  0 <= fst (Part0.convert_out 4294967295 (Part0.mk 7 3 1 7 1)) < 7 /\
  (fst (Part0.convert_out 4294967295 (Part0.mk 7 3 1 7 1))
   * 2 ^ Part0.r_bit_len (Part0.mk 7 3 1 7 1)) mod 7 = 4294967295 mod 7.
Proof.
  apply (Part0_convert_out_total 64 7); [lia | reflexivity | lia].
Defined.

(** The body of [REDC] on any [uint32_t] argument: the result is congruent
    to [x * ri], and from [2 * 2^k * N] on the one subtraction no longer
    brings it below [N]. *)
Lemma redc_body_u32 (N k ri ni x : Z) :
  2 <= k <= 31 -> 0 < N < 2^k -> 0 <= ni < 2^k ->
  2^k * ri - 1 = ni * N ->
  0 <= x < 2^32 ->
  let mask := 2^k - 1 in
  let s := u32 (Z.land (u64 (Z.land x mask * ni)) mask) in
  let t := u64 (x + u64 (s * N)) in
  let u := u32 (Z.shiftr t k) in
  let res := if N <=? u then u32 (u - N) else u in
  res mod N = (x * ri) mod N /\ (2 * 2^k * N <= x -> N <= res).
Proof.
  intros Hk HN Hni Hid Hx mask s t u res.
  pose proof (pow2_le_31 k ltac:(lia)) as HR.
  assert (HR4 : 2^2 <= 2^k) by (apply Z.pow_le_mono_r; lia).
  change (2^2) with 4 in HR4.
  assert (H62 : 2^32 + 2^31 * 2^31 < 2^64) by reflexivity.
  assert (H32 : 2^31 < 2^32) by reflexivity.
  subst res u t s mask. rewrite !land_mask by lia.
  set (R := 2^k) in *.
  pose proof (Z.mod_pos_bound x R ltac:(lia)) as Hxm.
  pose proof (Z.div_mod x R ltac:(lia)) as Hxd.
  set (xm := x mod R) in *. set (q2 := x / R) in *.
  rewrite (u64_small (xm * ni)) by nia.
  pose proof (Z.mod_pos_bound (xm * ni) R ltac:(lia)) as Hsm.
  pose proof (Z.div_mod (xm * ni) R ltac:(lia)) as Hsd.
  set (s := (xm * ni) mod R) in *. set (q1 := (xm * ni) / R) in *.
  rewrite (u32_small s) by lia.
  assert (HsN : 0 <= s * N <= 2^31 * R) by nia.
  rewrite (u64_small (s * N)) by nia.
  rewrite (u64_small (x + s * N)) by nia.
  assert (Ht : x + s * N = (q2 + xm * ri - q1 * N) * R) by nia.
  rewrite Z.shiftr_div_pow2 by lia. fold R.
  set (u := q2 + xm * ri - q1 * N) in *.
  assert (Hdiv : (x + s * N) / R = u) by (rewrite Ht; apply Z.div_mul; lia).
  rewrite Hdiv.
  assert (HuR : 0 <= u * R < 2^32 * R) by lia.
  assert (Hu : 0 <= u < 2^32) by nia.
  rewrite (u32_small u) by lia.
  assert (Hxr : x * ri = N * (q1 + q2 * ni) + u) by nia.
  assert (Hfar : 2 * R * N <= x -> 2 * N <= u).
  { intros Hbig. apply (Z.mul_le_mono_pos_r _ _ R); lia. }
  destruct (Z.leb_spec N u) as [Hge|Hlt].
  - rewrite u32_small by lia. split.
    + replace (x * ri) with (u - N + (q1 + q2 * ni + 1) * N) by lia.
      symmetry. apply Z.mod_add. lia.
    + intros Hbig. specialize (Hfar Hbig). lia.
  - split.
    + replace (x * ri) with (u + (q1 + q2 * ni) * N) by lia.
      symmetry. apply Z.mod_add. lia.
    + intros Hbig. specialize (Hfar Hbig). lia.
Qed.

(** X14. [convert_out] of [main2.cpp] does not reduce an argument that is
    too large: for a constructed context and a [uint32_t]
    [x >= 2 * R * n], [REDC(x)] is still congruent to [x * r_inv_mod]
    modulo [n] but is not below [n], whereas [convert_out] of [part_000]
    returns the residue; the two programs differ on such [x]. *)
Theorem Main2_convert_out_unreduced (fuel : nat) (n x : Z)
    (m2 : Main2.Montgomery) (m1 : Part0.Montgomery) :
  (64 <= fuel)%nat ->
  Main2.construct fuel n = Ok m2 -> Part0.construct fuel n = Ok m1 ->
  2 * 2 ^ Main2.r_bit_len m2 * n <= x < 2^32 ->
  n <= fst (Main2.convert_out x m2) /\
  fst (Main2.convert_out x m2) mod n = (x * Main2.r_inv_mod m2) mod n /\
  fst (Part0.convert_out x m1) = (x * Main2.r_inv_mod m2) mod n /\
  fst (Main2.convert_out x m2) <> fst (Part0.convert_out x m1).
Proof.
  intros Hfuel H2 H1 Hx. closed_contexts Hfuel H2 H1.
  cbn [Main2.r_bit_len Main2.r_inv_mod] in *.
  assert (HP : 0 < 2 ^ bits n) by lia.
  rewrite (Part0_convert_out_value n ri ni Hp Hk HR HN) by nia.
  destruct Hp as (_ & Hri & _ & Hni & Hid).
  pose proof (redc_body_u32 n (bits n) ri ni x ltac:(lia) ltac:(lia)
                ltac:(lia) Hid ltac:(nia)) as H.
  cbv zeta in H. destruct H as [Hcong Hbig].
  specialize (Hbig ltac:(lia)).
  unfold Main2.convert_out, Main2.REDC, Main2.REDC_t, Main2.REDC_s.
  cbn [Main2.n Main2.r_bit_len Main2.r_mask Main2.n_inv_mod fst].
  pose proof (Z.mod_pos_bound (x * ri) n ltac:(lia)) as Hb.
  split; [exact Hbig|]. split; [exact Hcong|]. split; [reflexivity|]. lia.
Qed.

Lemma Main2_convert_out_unreduced_witness :
  3 <= fst (Main2.convert_out 100 (Main2.mk 3 2 1 3 1 1)) /\
  fst (Main2.convert_out 100 (Main2.mk 3 2 1 3 1 1)) mod 3
    = (100 * Main2.r_inv_mod (Main2.mk 3 2 1 3 1 1)) mod 3 /\
  fst (Part0.convert_out 100 (Part0.mk 3 2 1 3 1))
    = (100 * Main2.r_inv_mod (Main2.mk 3 2 1 3 1 1)) mod 3 /\
  fst (Main2.convert_out 100 (Main2.mk 3 2 1 3 1 1))
    <> fst (Part0.convert_out 100 (Part0.mk 3 2 1 3 1)).
Proof.
  apply (Main2_convert_out_unreduced 64 3 100);
    [lia | reflexivity | reflexivity | ].
  cbn [Main2.r_bit_len]. lia.
Defined.

(** ** The test loop of [main] *)

Lemma min_n_value (bitlen : Z) :
  0 <= bitlen <= 30 -> min_n bitlen = 2 ^ bitlen + 1.
Proof.
  intros Hb. unfold min_n. rewrite Z.shiftl_mul_pow2, Z.mul_1_l by lia.
  assert (0 < 2 ^ bitlen) by (apply Z.pow_pos_nonneg; lia).
  assert (2 ^ bitlen <= 2 ^ 30) by (apply Z.pow_le_mono_r; lia).
  assert (2^30 + 1 < 2^32) by reflexivity.
  rewrite (u32_small (2 ^ bitlen)) by lia. apply u32_small. lia.
Qed.

Lemma max_n_value (bitlen : Z) :
  0 <= bitlen <= 31 -> max_n bitlen = 2 ^ (bitlen + 1) - 1.
Proof.
  intros Hb. unfold max_n, UINT32_MAX.
  assert (31 < 2^32) by reflexivity.
  rewrite u32_small by lia. rewrite Z.shiftr_div_pow2 by lia.
  change (2^32 - 1) with (Z.ones 32).
  rewrite Z.ones_div_pow2 by lia. rewrite Z.ones_equiv.
  replace (32 - (31 - bitlen)) with (bitlen + 1) by lia. lia.
Qed.

Lemma Main2_trial_calls (fuel : nat) (n a b : Z) :
  Main2.trial fuel n a b =
  (mont <- Main2.construct fuel n ;;
   if negb (fst (Main2.product a b mont) =? u32 (u64 (a * b) mod n))
   then Throw (runtime_error "Montgomery multiplication test failed.")
   else Ok tt).
Proof. unfold Main2.trial. destruct (Main2.construct fuel n); reflexivity. Qed.

Lemma Part0_trial_calls (fuel : nat) (n a b : Z) :
  Part0.trial fuel n a b =
  (mont <- Part0.construct fuel n ;;
   if negb (fst (Part0.product a b mont) =? u32 (u64 (a * b) mod n))
   then Throw (runtime_error "Montgomery multiplication test failed.")
   else Ok tt).
Proof. unfold Part0.trial. destruct (Part0.construct fuel n); reflexivity. Qed.

(** X15. No trial of the test loop of [main] throws. For every [bitlen] the
    loop goes through (1 to 30), every odd modulus [n] the distribution
    over [min_n, max_n] can give, and all operands [a], [b] drawn from
    [0, n - 1]: [n] has exactly [bitlen + 1] bits (the number printed), the
    constructor accepts it, and the Montgomery product equals [expected],
    in both programs. *)
Theorem test_trial_passes (fuel : nat) (bitlen n a b : Z) :
  (64 <= fuel)%nat -> 1 <= bitlen <= 30 ->
  min_n bitlen <= n <= max_n bitlen -> Z.odd n = true ->
  0 <= a <= n - 1 -> 0 <= b <= n - 1 ->
  bit_length fuel n = Ok (bitlen + 1) /\
  Main2.trial fuel n a b = Ok tt /\ Part0.trial fuel n a b = Ok tt.
Proof.
  intros Hfuel Hbl Hn Hodd Ha Hb.
  rewrite min_n_value, max_n_value in Hn by lia.
  assert (Hlo : 2 ^ 1 <= 2 ^ bitlen) by (apply Z.pow_le_mono_r; lia).
  assert (Hhi : 2 ^ (bitlen + 1) <= 2 ^ 31) by (apply Z.pow_le_mono_r; lia).
  change (2^1) with 2 in Hlo.
  assert (Hrange : 3 <= n <= 2^31 - 1) by lia.
  assert (H32 : 2^31 < 2^32) by reflexivity.
  assert (Hbits : bits n = bitlen + 1).
  { unfold bits. destruct (Z.eqb_spec n 0); [lia|].
    f_equal. apply Z.log2_unique; [lia|].
    replace (Z.succ bitlen) with (bitlen + 1) by lia. lia. }
  split; [rewrite <- Hbits; apply bit_length_correct; lia|].
  destruct (construct_ok fuel n Hodd Hrange Hfuel) as (ri & ni & E2 & E1 & _).
  destruct (products_value fuel n a b _ _ Hfuel E2 E1 ltac:(lia) ltac:(lia))
    as [P2 P1].
  assert (H62 : 2^31 * 2^31 < 2^64) by reflexivity.
  assert (Hexp : u32 (u64 (a * b) mod n) = (a * b) mod n).
  { rewrite (u64_small (a * b)) by nia.
    pose proof (Z.mod_pos_bound (a * b) n ltac:(lia)). apply u32_small. lia. }
  split.
  - rewrite Main2_trial_calls, E2. cbn [bind]. rewrite P2, Hexp.
    rewrite Z.eqb_refl. reflexivity.
  - rewrite Part0_trial_calls, E1. cbn [bind]. rewrite P1, Hexp.
    rewrite Z.eqb_refl. reflexivity.
Qed.

Lemma test_trial_passes_witness :
  bit_length 64 1280541179 = Ok (30 + 1) /\
  Main2.trial 64 1280541179 1115177062 95490452 = Ok tt /\
  Part0.trial 64 1280541179 1115177062 95490452 = Ok tt.
Proof.
  apply (test_trial_passes 64 30 1280541179 1115177062 95490452);
    [lia | lia | vm_compute; split; discriminate | reflexivity | lia | lia].
Defined.
